(** * The RDL schema builder (rdl/schemabuilder.go)

    A shallow embedding of the schema builder of ardielle-go: the type
    descriptor builders, the resource builder, and [SchemaBuilder.Build]
    with its dependency resolver ([resolve] / [resolveRef]).

    Go pointers that may be nil are [option]s, Go maps are [gmap]s, the map
    [resolved] that [resolve] mutates in place is threaded through as state
    together with the slice [ordered]. A nil dereference is the outcome
    [Panic]; the recursion of [resolve] is bounded by a fuel argument, and
    running out of fuel at every bound stands for unbounded recursion. *)

From stdpp Require Import gmap strings list fin_maps relations.
From Stdlib Require Import ZArith.

Local Open Scope string_scope.
Local Open Scope list_scope.

(** ** Outcomes of running Go code *)

Inductive outcome (A : Type) : Type :=
  | Returned (a : A)   (* the call returns [a] *)
  | Panic              (* runtime panic: nil pointer dereference *)
  | OutOfFuel.         (* the recursion bound was reached *)
Arguments Returned {A} a.
Arguments Panic {A}.
Arguments OutOfFuel {A}.

#[global] Instance outcome_ret : MRet outcome := λ A a, Returned a.
#[global] Instance outcome_bind : MBind outcome := λ A B f m,
  match m with
  | Returned a => f a
  | Panic => Panic
  | OutOfFuel => OutOfFuel
  end.

(** [*p] for a pointer [p]: nil panics. *)
Definition deref {A : Type} (p : option A) : outcome A :=
  match p with
  | Some a => Returned a
  | None => Panic
  end.

(** ** Data model

    Field [F] of the Go struct [S] is the projection [S_F] (Go's [Type] and
    [Name] fields occur in every descriptor). *)

Inductive TypeVariant : Type :=
  | TypeVariantAliasTypeDef
  | TypeVariantStringTypeDef
  | TypeVariantNumberTypeDef
  | TypeVariantStructTypeDef
  | TypeVariantArrayTypeDef
  | TypeVariantMapTypeDef
  | TypeVariantEnumTypeDef
  | TypeVariantUnionTypeDef.

Record AliasTypeDef : Type := mkAliasTypeDef {
  Alias_Type : string;
  Alias_Name : string;
  Alias_Comment : string }.

Record StringTypeDef : Type := mkStringTypeDef {
  String_Type : string;
  String_Name : string;
  String_Comment : string;
  String_Pattern : string;
  String_Values : option (list string);   (* nil slice = None *)
  String_MinSize : option Z;              (* *int32 *)
  String_MaxSize : option Z }.

Inductive Number : Type :=
  | NumberInt8 (v : Z)
  | NumberInt16 (v : Z)
  | NumberInt32 (v : Z)
  | NumberInt64 (v : Z)
  | NumberFloat32 (bits : Z)
  | NumberFloat64 (bits : Z).

Record NumberTypeDef : Type := mkNumberTypeDef {
  Number_Type : string;
  Number_Name : string;
  Number_Comment : string;
  Number_Min : option Number;
  Number_Max : option Number }.

(** A default value ([interface{}]) of a field or an input, as far as the
    builders only store it. *)
Inductive Value : Type :=
  | VNil
  | VBool (b : bool)
  | VInt (z : Z)
  | VString (s : string).

Record StructFieldDef : Type := mkStructFieldDef {
  Field_Name : string;
  Field_Type : string;
  Field_Optional : bool;
  Field_Default : Value;
  Field_Comment : string;
  Field_Items : string;
  Field_Keys : string }.

Record StructTypeDef : Type := mkStructTypeDef {
  Struct_Type : string;
  Struct_Name : string;
  Struct_Comment : string;
  Struct_Fields : list StructFieldDef }.   (* the builder appends non-nil fields *)

Record ArrayTypeDef : Type := mkArrayTypeDef {
  Array_Type : string;
  Array_Name : string;
  Array_Comment : string;
  Array_Items : string }.

Record MapTypeDef : Type := mkMapTypeDef {
  Map_Type : string;
  Map_Name : string;
  Map_Comment : string;
  Map_Keys : string;
  Map_Items : string }.

Record EnumElementDef : Type := mkEnumElementDef {
  Element_Symbol : string;
  Element_Comment : string }.

Record EnumTypeDef : Type := mkEnumTypeDef {
  Enum_Type : string;
  Enum_Name : string;
  Enum_Comment : string;
  Enum_Elements : list EnumElementDef }.

Record UnionTypeDef : Type := mkUnionTypeDef {
  Union_Type : string;
  Union_Name : string;
  Union_Comment : string;
  Union_Variants : list string }.

(** Go's [Type]: one record with a tag and one optional pointer per kind. *)
Record Type_ : Type := mkType {
  Variant : TypeVariant;
  T_AliasTypeDef : option AliasTypeDef;
  T_StringTypeDef : option StringTypeDef;
  T_NumberTypeDef : option NumberTypeDef;
  T_StructTypeDef : option StructTypeDef;
  T_ArrayTypeDef : option ArrayTypeDef;
  T_MapTypeDef : option MapTypeDef;
  T_EnumTypeDef : option EnumTypeDef;
  T_UnionTypeDef : option UnionTypeDef }.

(** Modelled from the spec: [TypeInfo] is declared outside schemabuilder.go.
    It returns the common attributes of a descriptor (own name, supertype
    name, comment), read from the definition its variant tag selects; a nil
    descriptor, or a nil definition under the tag, is a nil dereference. *)
Definition TypeInfo (t : option Type_) : outcome (string * string * string) :=
  t ← deref t;
  match Variant t with
  | TypeVariantAliasTypeDef =>
      d ← deref (T_AliasTypeDef t);
      mret (Alias_Name d, Alias_Type d, Alias_Comment d)
  | TypeVariantStringTypeDef =>
      d ← deref (T_StringTypeDef t);
      mret (String_Name d, String_Type d, String_Comment d)
  | TypeVariantNumberTypeDef =>
      d ← deref (T_NumberTypeDef t);
      mret (Number_Name d, Number_Type d, Number_Comment d)
  | TypeVariantStructTypeDef =>
      d ← deref (T_StructTypeDef t);
      mret (Struct_Name d, Struct_Type d, Struct_Comment d)
  | TypeVariantArrayTypeDef =>
      d ← deref (T_ArrayTypeDef t);
      mret (Array_Name d, Array_Type d, Array_Comment d)
  | TypeVariantMapTypeDef =>
      d ← deref (T_MapTypeDef t);
      mret (Map_Name d, Map_Type d, Map_Comment d)
  | TypeVariantEnumTypeDef =>
      d ← deref (T_EnumTypeDef t);
      mret (Enum_Name d, Enum_Type d, Enum_Comment d)
  | TypeVariantUnionTypeDef =>
      d ← deref (T_UnionTypeDef t);
      mret (Union_Name d, Union_Type d, Union_Comment d)
  end.

Record ResourceInput : Type := mkResourceInput {
  Input_Name : string;
  Input_Type : string;
  Input_Comment : string;
  Input_PathParam : bool;
  Input_QueryParam : string;
  Input_Header : string;
  Input_Default : Value;
  Input_Optional : bool }.

Record ResourceOutput : Type := mkResourceOutput {
  Output_Name : string;
  Output_Type : string;
  Output_Comment : string;
  Output_Header : string;
  Output_Optional : bool }.

Record ResourceAuth : Type := mkResourceAuth {
  Auth_Authenticate : bool;
  Auth_Action : string;
  Auth_Resource : string;
  Auth_Domain : string }.

Record ExceptionDef : Type := mkExceptionDef {
  Exception_Type : string;
  Exception_Comment : string }.

Record Resource : Type := mkResource {
  Resource_Type : string;
  Resource_Method : string;
  Resource_Path : string;
  Resource_Comment : string;
  Resource_Inputs : list ResourceInput;
  Resource_Outputs : list ResourceOutput;
  Resource_Auth : option ResourceAuth;
  Resource_Expected : string;
  Resource_Exceptions : option (gmap string ExceptionDef);  (* nil map = None *)
  Resource_Name : string }.

Record Schema : Type := mkSchema {
  Schema_Name : string;
  Schema_Namespace : string;
  Schema_Version : option Z;
  Schema_Base : string;
  Schema_Comment : string;
  Schema_Types : list (option Type_);       (* []*Type *)
  Schema_Resources : list Resource }.

(** ** SchemaBuilder *)

Record SchemaBuilder : Type := mkSchemaBuilder {
  proto : Schema;
  err : option string }.

Definition NewSchemaBuilder (name : string) : SchemaBuilder :=
  mkSchemaBuilder (mkSchema name "" None "" "" [] []) None.

Definition AddType (sb : SchemaBuilder) (t : option Type_) : SchemaBuilder :=
  let p := proto sb in
  mkSchemaBuilder
    (mkSchema (Schema_Name p) (Schema_Namespace p) (Schema_Version p)
       (Schema_Base p) (Schema_Comment p) (Schema_Types p ++ [t])
       (Schema_Resources p))
    (err sb).

Definition AddResource (sb : SchemaBuilder) (r : Resource) : SchemaBuilder :=
  let p := proto sb in
  mkSchemaBuilder
    (mkSchema (Schema_Name p) (Schema_Namespace p) (Schema_Version p)
       (Schema_Base p) (Schema_Comment p) (Schema_Types p)
       (Schema_Resources p ++ [r]))
    (err sb).

(** A [switch] case list: does [name] equal one of the literals? *)
Definition in_cases (name : string) (cases : list string) : bool :=
  existsb (String.eqb name) cases.

Definition isBaseType (name : string) : bool :=
  if in_cases name ["Bool"; "Int8"; "Int16"; "Int32"; "Int64"; "Float32"; "Float64"]
  then true
  else if in_cases name ["String"; "Bytes"; "Timestamp"; "Symbol"; "UUID"]
  then true
  else if in_cases name ["Struct"; "Array"; "Map"; "Enum"; "Union"; "Any"]
  then true
  else false.

Arguments in_cases : simpl never.
Arguments isBaseType : simpl never.

(** The first case list of the [switch super] in [resolve]: supertypes with
    no dependencies. *)
Definition no_dependencies : list string :=
  ["String"; "Bytes"; "Bool"; "Int8"; "Int16"; "Int32"; "Int64";
   "Float32"; "Float64"; "UUID"; "Timestamp"].

(** The resolver's state: the slice [ordered] and the map [resolved]. *)
Definition rstate : Type := list (option Type_) * gmap string bool.

Definition resolveRef (resolve : rstate → string → string → outcome rstate)
    (all : gmap string Type_) (st : rstate) (ref : string) : outcome rstate :=
  if negb (isBaseType ref) then
    let t := all !! ref in
    '(_, super, _) ← TypeInfo t;
    resolve st ref super
  else mret st.

(** [for _, f := range fields { ordered = sb.resolveRef(..., f.Type) }] *)
Fixpoint resolveFields (resolve : rstate → string → string → outcome rstate)
    (all : gmap string Type_) (st : rstate) (fields : list StructFieldDef)
    : outcome rstate :=
  match fields with
  | [] => mret st
  | f :: fields =>
      st ← resolveRef resolve all st (Field_Type f);
      resolveFields resolve all st fields
  end.

Fixpoint resolve (fuel : nat) (all : gmap string Type_) (st : rstate)
    (name super : string) : outcome rstate :=
  match fuel with
  | O => OutOfFuel
  | S fuel =>
      if bool_decide (is_Some (st.2 !! name)) || isBaseType name then mret st
      else
        let t := all !! name in
        st ← (if in_cases super no_dependencies then mret st
              else if String.eqb super "Array" then
                t ← deref t;
                d ← deref (T_ArrayTypeDef t);
                resolveRef (resolve fuel all) all st (Array_Items d)
              else if String.eqb super "Map" then
                t ← deref t;
                d ← deref (T_MapTypeDef t);
                st ← resolveRef (resolve fuel all) all st (Map_Items d);
                resolveRef (resolve fuel all) all st (Map_Keys d)
              else if String.eqb super "Struct" then
                t ← deref t;
                d ← deref (T_StructTypeDef t);
                resolveFields (resolve fuel all) all st (Struct_Fields d)
              else resolveRef (resolve fuel all) all st super);
        mret (st.1 ++ [t], <[name := true]> (st.2))
  end.

(** [for _, t := range sb.proto.Types { all[name] = t }] *)
Fixpoint collect (types : list (option Type_)) (all : gmap string Type_)
    : outcome (gmap string Type_) :=
  match types with
  | [] => mret all
  | t :: types =>
      '(name, _, _) ← TypeInfo t;
      t ← deref t;
      collect types (<[name := t]> all)
  end.

(** [for _, t := range sb.proto.Types { ordered = sb.resolve(...) }] *)
Fixpoint resolveAll (fuel : nat) (all : gmap string Type_)
    (types : list (option Type_)) (st : rstate) : outcome rstate :=
  match types with
  | [] => mret st
  | t :: types =>
      '(name, super, _) ← TypeInfo t;
      st ← resolve fuel all st name super;
      resolveAll fuel all types st
  end.

Section Build.
(** The table [namesBaseType] is declared outside schemabuilder.go; [Build]
    seeds [resolved] with its entries. *)
Variable namesBaseType : list string.

Definition seed : gmap string bool :=
  foldl (λ resolved bt, <[bt := true]> resolved) ∅ namesBaseType.

Definition Build (fuel : nat) (sb : SchemaBuilder) : outcome Schema :=
  let p := proto sb in
  all ← collect (Schema_Types p) ∅;
  st ← resolveAll fuel all (Schema_Types p) ([], seed);
  mret (mkSchema (Schema_Name p) (Schema_Namespace p) (Schema_Version p)
          (Schema_Base p) (Schema_Comment p) st.1 (Schema_Resources p)).
End Build.

(** Modelled from the spec: the entries of [namesBaseType], "every Base Type
    name" of the fixed closed set. *)
Definition baseTypeNames : list string :=
  ["Bool"; "Int8"; "Int16"; "Int32"; "Int64"; "Float32"; "Float64";
   "Bytes"; "String"; "Timestamp"; "Symbol"; "UUID";
   "Array"; "Map"; "Struct"; "Enum"; "Union"; "Any"].

(** ** Type descriptor builders *)

Module StringTypeBuilder.
Record t : Type := mk { st : StringTypeDef }.

Definition New (name : string) : t :=
  mk (mkStringTypeDef "String" name "" "" None None None).

Definition Comment (tb : t) (comment : string) : t :=
  let d := st tb in
  mk (mkStringTypeDef (String_Type d) (String_Name d) comment
        (String_Pattern d) (String_Values d) (String_MinSize d)
        (String_MaxSize d)).

Definition Pattern (tb : t) (pattern : string) : t :=
  let d := st tb in
  mk (mkStringTypeDef (String_Type d) (String_Name d) (String_Comment d)
        pattern (String_Values d) (String_MinSize d) (String_MaxSize d)).

Definition MaxSize (tb : t) (maxsize : Z) : t :=
  let d := st tb in
  mk (mkStringTypeDef (String_Type d) (String_Name d) (String_Comment d)
        (String_Pattern d) (String_Values d) (String_MinSize d)
        (Some maxsize)).

Definition MinSize (tb : t) (minsize : Z) : t :=
  let d := st tb in
  mk (mkStringTypeDef (String_Type d) (String_Name d) (String_Comment d)
        (String_Pattern d) (String_Values d) (Some minsize)
        (String_MaxSize d)).

Definition Build (tb : t) : Type_ :=
  let d := st tb in
  if String.eqb (String_Pattern d) ""
     && bool_decide (String_MaxSize d = None)
     && bool_decide (String_MinSize d = None)
     && bool_decide (String_Values d = None)
  then
    mkType TypeVariantAliasTypeDef
      (Some (mkAliasTypeDef (String_Type d) (String_Name d) (String_Comment d)))
      None None None None None None None
  else
    mkType TypeVariantStringTypeDef
      None (Some d) None None None None None None.
End StringTypeBuilder.

Module AliasTypeBuilder.
Record t : Type := mk { proto : AliasTypeDef }.

Definition New (supertype name : string) : t :=
  mk (mkAliasTypeDef supertype name "").

Definition Comment (tb : t) (comment : string) : t :=
  mk (mkAliasTypeDef (Alias_Type (proto tb)) (Alias_Name (proto tb)) comment).

Definition Build (tb : t) : Type_ :=
  mkType TypeVariantAliasTypeDef
    (Some (proto tb)) None None None None None None None.
End AliasTypeBuilder.

Module StructTypeBuilder.
Record t : Type := mk { proto : StructTypeDef }.

Definition New (supertype name : string) : t :=
  mk (mkStructTypeDef supertype name "" []).

Definition append_field (tb : t) (f : StructFieldDef) : t :=
  let d := proto tb in
  mk (mkStructTypeDef (Struct_Type d) (Struct_Name d) (Struct_Comment d)
        (Struct_Fields d ++ [f])).

Definition Comment (tb : t) (comment : string) : t :=
  let d := proto tb in
  mk (mkStructTypeDef (Struct_Type d) (Struct_Name d) comment
        (Struct_Fields d)).

Definition Field (tb : t) (fname ftype : string) (optional : bool)
    (def : Value) (comment : string) : t :=
  append_field tb (mkStructFieldDef fname ftype optional def comment "" "").

Definition MapField (tb : t) (fname fkeys fitems : string)
    (optional : bool) (comment : string) : t :=
  append_field tb
    (mkStructFieldDef fname "Map" optional VNil comment fitems fkeys).

Definition ArrayField (tb : t) (fname fitems : string) (optional : bool)
    (comment : string) : t :=
  append_field tb
    (mkStructFieldDef fname "Array" optional VNil comment fitems "").

Definition Build (tb : t) : Type_ :=
  mkType TypeVariantStructTypeDef
    None None None (Some (proto tb)) None None None None.
End StructTypeBuilder.

Module ArrayTypeBuilder.
Record t : Type := mk { proto : ArrayTypeDef }.

Definition New (supertype name : string) : t :=
  mk (mkArrayTypeDef supertype name "" "").

Definition Comment (tb : t) (comment : string) : t :=
  let d := proto tb in
  mk (mkArrayTypeDef (Array_Type d) (Array_Name d) comment (Array_Items d)).

Definition Items (tb : t) (items : string) : t :=
  let d := proto tb in
  mk (mkArrayTypeDef (Array_Type d) (Array_Name d) (Array_Comment d) items).

Definition Build (tb : t) : Type_ :=
  mkType TypeVariantArrayTypeDef
    None None None None (Some (proto tb)) None None None.
End ArrayTypeBuilder.

Module MapTypeBuilder.
Record t : Type := mk { proto : MapTypeDef }.

Definition New (supertype name : string) : t :=
  mk (mkMapTypeDef supertype name "" "" "").

Definition Comment (tb : t) (comment : string) : t :=
  let d := proto tb in
  mk (mkMapTypeDef (Map_Type d) (Map_Name d) comment (Map_Keys d)
        (Map_Items d)).

Definition Keys (tb : t) (keys : string) : t :=
  let d := proto tb in
  mk (mkMapTypeDef (Map_Type d) (Map_Name d) (Map_Comment d) keys
        (Map_Items d)).

Definition Items (tb : t) (items : string) : t :=
  let d := proto tb in
  mk (mkMapTypeDef (Map_Type d) (Map_Name d) (Map_Comment d) (Map_Keys d)
        items).

Definition Build (tb : t) : Type_ :=
  mkType TypeVariantMapTypeDef
    None None None None None (Some (proto tb)) None None.
End MapTypeBuilder.

Module UnionTypeBuilder.
Record t : Type := mk { proto : UnionTypeDef }.

Definition New (supertype name : string) : t :=
  mk (mkUnionTypeDef supertype name "" []).

Definition Comment (tb : t) (comment : string) : t :=
  let d := proto tb in
  mk (mkUnionTypeDef (Union_Type d) (Union_Name d) comment
        (Union_Variants d)).

Definition Variant (tb : t) (variant : string) : t :=
  let d := proto tb in
  mk (mkUnionTypeDef (Union_Type d) (Union_Name d) (Union_Comment d)
        (Union_Variants d ++ [variant])).

Definition Build (tb : t) : Type_ :=
  mkType TypeVariantUnionTypeDef
    None None None None None None None (Some (proto tb)).
End UnionTypeBuilder.

(** ** Resource builder *)

Module ResourceBuilder.
Record t : Type := mk { proto : Resource }.

Definition New (typename method path : string) : t :=
  mk (mkResource typename method path "" [] [] None "OK" None "").

Definition Comment (rb : t) (comment : string) : t :=
  let r := proto rb in
  mk (mkResource (Resource_Type r) (Resource_Method r) (Resource_Path r)
        comment (Resource_Inputs r) (Resource_Outputs r) (Resource_Auth r)
        (Resource_Expected r) (Resource_Exceptions r) (Resource_Name r)).

Definition Input (rb : t) (name typename : string) (pparam : bool)
    (qparam header : string) (optional : bool) (def : Value)
    (comment : string) : t :=
  let r := proto rb in
  let ri := mkResourceInput name typename comment pparam qparam header def
              optional in
  mk (mkResource (Resource_Type r) (Resource_Method r) (Resource_Path r)
        (Resource_Comment r) (Resource_Inputs r ++ [ri])
        (Resource_Outputs r) (Resource_Auth r) (Resource_Expected r)
        (Resource_Exceptions r) (Resource_Name r)).

Definition Output (rb : t) (name typename header : string)
    (optional : bool) (comment : string) : t :=
  let r := proto rb in
  let ro := mkResourceOutput name typename comment header optional in
  mk (mkResource (Resource_Type r) (Resource_Method r) (Resource_Path r)
        (Resource_Comment r) (Resource_Inputs r)
        (Resource_Outputs r ++ [ro]) (Resource_Auth r)
        (Resource_Expected r) (Resource_Exceptions r) (Resource_Name r)).

Definition Auth (rb : t) (action resource : string) (authn : bool)
    (domain : string) : t :=
  let r := proto rb in
  let ra := mkResourceAuth authn action resource domain in
  mk (mkResource (Resource_Type r) (Resource_Method r) (Resource_Path r)
        (Resource_Comment r) (Resource_Inputs r) (Resource_Outputs r)
        (Some ra) (Resource_Expected r) (Resource_Exceptions r)
        (Resource_Name r)).

Definition Expected (rb : t) (sym : string) : t :=
  let r := proto rb in
  mk (mkResource (Resource_Type r) (Resource_Method r) (Resource_Path r)
        (Resource_Comment r) (Resource_Inputs r) (Resource_Outputs r)
        (Resource_Auth r) sym (Resource_Exceptions r) (Resource_Name r)).

Definition Exception (rb : t) (sym typename comment : string) : t :=
  let r := proto rb in
  let e := mkExceptionDef typename comment in
  let exceptions :=
    match Resource_Exceptions r with
    | None => ∅      (* make(map[string]*ExceptionDef) *)
    | Some m => m
    end in
  mk (mkResource (Resource_Type r) (Resource_Method r) (Resource_Path r)
        (Resource_Comment r) (Resource_Inputs r) (Resource_Outputs r)
        (Resource_Auth r) (Resource_Expected r)
        (Some (<[sym := e]> exceptions)) (Resource_Name r)).

Definition Name (rb : t) (sym : string) : t :=
  let r := proto rb in
  mk (mkResource (Resource_Type r) (Resource_Method r) (Resource_Path r)
        (Resource_Comment r) (Resource_Inputs r) (Resource_Outputs r)
        (Resource_Auth r) (Resource_Expected r) (Resource_Exceptions r) sym).

Definition Build (rb : t) : Resource := proto rb.

(** [rb.proto.Exceptions[sym]]: reading a nil map yields nothing. *)
Definition exception (r : Resource) (sym : string) : option ExceptionDef :=
  Resource_Exceptions r ≫= λ m, m !! sym.

(** One chained call on a resource builder. *)
Inductive call : Type :=
  | CallComment (comment : string)
  | CallInput (name typename : string) (pparam : bool)
      (qparam header : string) (optional : bool) (def : Value)
      (comment : string)
  | CallOutput (name typename header : string) (optional : bool)
      (comment : string)
  | CallAuth (action resource : string) (authn : bool) (domain : string)
  | CallExpected (sym : string)
  | CallException (sym typename comment : string)
  | CallName (sym : string).

Definition apply (rb : t) (c : call) : t :=
  match c with
  | CallComment comment => Comment rb comment
  | CallInput name typename pparam qparam header optional def comment =>
      Input rb name typename pparam qparam header optional def comment
  | CallOutput name typename header optional comment =>
      Output rb name typename header optional comment
  | CallAuth action resource authn domain =>
      Auth rb action resource authn domain
  | CallExpected sym => Expected rb sym
  | CallException sym typename comment => Exception rb sym typename comment
  | CallName sym => Name rb sym
  end.

(** A chain [rb.c1(...).c2(...)...]. *)
Definition chain (rb : t) (calls : list call) : t := foldl apply rb calls.

(** Does call [c] register an exception under [sym]? *)
Definition registers (sym : string) (c : call) : bool :=
  match c with
  | CallException sym' _ _ => String.eqb sym' sym
  | _ => false
  end.
End ResourceBuilder.

(** ** Example schemas *)

Definition declare (name : string) (types : list Type_) : SchemaBuilder :=
  foldl (λ sb t, AddType sb (Some t)) (NewSchemaBuilder name) types.

(** The Type sequence of the finished schema. *)
Definition built_types (o : outcome Schema) : outcome (list (option Type_)) :=
  s ← o; mret (Schema_Types s).

Definition Point : Type_ :=
  StructTypeBuilder.Build
    (StructTypeBuilder.Field
       (StructTypeBuilder.Field (StructTypeBuilder.New "Struct" "Point")
          "x" "Int32" false VNil "")
       "y" "Int32" false VNil "").

Definition Line : Type_ :=
  StructTypeBuilder.Build
    (StructTypeBuilder.Field
       (StructTypeBuilder.Field (StructTypeBuilder.New "Struct" "Line")
          "from" "Point" false VNil "")
       "to" "Point" false VNil "").

(** ** What the resolver follows

    The references of a descriptor that [resolve] passes to [resolveRef],
    by the cases of its [switch super]. *)
Definition followed (super : string) (t : Type_) : list string :=
  if in_cases super no_dependencies then []
  else if String.eqb super "Array" then
    match T_ArrayTypeDef t with Some d => [Array_Items d] | None => [] end
  else if String.eqb super "Map" then
    match T_MapTypeDef t with Some d => [Map_Items d; Map_Keys d] | None => [] end
  else if String.eqb super "Struct" then
    match T_StructTypeDef t with
    | Some d => map Field_Type (Struct_Fields d)
    | None => []
    end
  else [super].

(** Own name and supertype name of a descriptor, when [TypeInfo] returns. *)
Definition info (t : option Type_) : option (string * string) :=
  match TypeInfo t with
  | Returned (name, super, _) => Some (name, super)
  | _ => None
  end.

Definition name_of (t : option Type_) : option string := fst <$> info t.

Definition declared_names (types : list (option Type_)) : list string :=
  omap name_of types.

(** The references the resolver follows from the descriptor registered
    under [n]. *)
Definition deps_of (all : gmap string Type_) (n : string) : list string :=
  match all !! n with
  | Some t =>
      match info (Some t) with
      | Some (_, super) => followed super t
      | None => []
      end
  | None => []
  end.

(** * Basic facts *)

Lemma bind_Returned {A B : Type} (m : outcome A) (f : A → outcome B) (b : B) :
  m ≫= f = Returned b → ∃ a, m = Returned a ∧ f a = Returned b.
Proof. destruct m as [a| |]; simpl; intros H; try discriminate. eauto. Qed.

Lemma bind_Returned_l {A B : Type} (a : A) (f : A → outcome B) :
  Returned a ≫= f = f a.
Proof. done. Qed.

Lemma deref_Some {A : Type} (a : A) : deref (Some a) = Returned a.
Proof. done. Qed.

Lemma deref_Returned {A : Type} (p : option A) (a : A) :
  deref p = Returned a → p = Some a.
Proof. destruct p; simpl; congruence. Qed.

Lemma TypeInfo_Returned t x : TypeInfo t = Returned x → ∃ t', t = Some t'.
Proof. destruct t; [eauto | discriminate]. Qed.

Lemma info_Some t n s :
  info t = Some (n, s) ↔ ∃ c, TypeInfo t = Returned (n, s, c).
Proof.
  unfold info. split.
  - destruct (TypeInfo t) as [[[n' s'] c]| |]; intros H; simplify_eq. eauto.
  - intros [c ->]. done.
Qed.

Lemma in_cases_true name cases : in_cases name cases = true ↔ name ∈ cases.
Proof.
  unfold in_cases. rewrite existsb_exists. split.
  - intros (x & Hin & Heq). apply String.eqb_eq in Heq as ->.
    by apply list_elem_of_In.
  - intros Hin. exists name. split; [by apply list_elem_of_In|].
    apply String.eqb_refl.
Qed.

Ltac inv_bind H :=
  let a := fresh "a" in
  let Ha := fresh "H" a in
  apply bind_Returned in H as (a & Ha & H).

(** * The resolver's invariant

    Over a name-to-descriptor map whose keys are the names of its
    descriptors, and any set of seeded names: the entries of the table
    [namesBaseType], whatever they are. *)

Section Resolver.
Variable all : gmap string Type_.
Variable seeded : gset string.

Hypothesis all_wf :
  ∀ k t, all !! k = Some t → ∃ s, info (Some t) = Some (k, s).

(** [resolve] is called on [name] with the supertype of the descriptor
    registered under [name]. *)
Definition consistent (name super : string) : Prop :=
  ∃ t, all !! name = Some t ∧ info (Some t) = Some (name, super).

(** State [st] has emitted the names [em], in this order. *)
Record inv (st : rstate) (em : list string) : Prop := mkInv {
  inv_ordered : st.1 = map (λ n, all !! n) em;
  inv_resolved : dom st.2 = seeded ∪ list_to_set em;
  inv_nodup : NoDup em;
  inv_names : ∀ n, n ∈ em →
    isBaseType n = false ∧ n ∉ seeded ∧ is_Some (all !! n);
  inv_topo : ∀ i n r,
    em !! i = Some n → r ∈ deps_of all n → isBaseType r = false →
    r ∉ seeded → ∃ j, j < i ∧ em !! j = Some r;
  inv_registered : ∀ n r,
    n ∈ em → r ∈ deps_of all n → isBaseType r = false →
    is_Some (all !! r) }.

(** What a returning call on [name] has done: it emitted nothing, or a
    run of names that ends with [name]. *)
Definition post (em : list string) (name : string) (st' : rstate) : Prop :=
  ∃ new, inv st' (em ++ new)
       ∧ (isBaseType name = true ∨ name ∈ dom st'.2)
       ∧ (new = []
          ∨ (∃ new', new = new' ++ [name]
                     ∧ isBaseType name = false ∧ name ∉ seeded)).

(** A name whose reference [d] was emitted last cannot have been emitted
    yet: its references come strictly before it. *)
Lemma not_emitted_yet st' em new d name :
  inv st' (em ++ new) →
  (new = []
   ∨ (∃ new', new = new' ++ [d] ∧ isBaseType d = false ∧ d ∉ seeded)) →
  d ∈ deps_of all name → name ∉ em → name ∉ em ++ new.
Proof.
  intros Hinv [-> | (new' & -> & Hd & Hds)] Hdep Hname;
    [by rewrite app_nil_r|].
  intros Hin. apply list_elem_of_lookup in Hin as [i Hi].
  destruct (inv_topo _ _ Hinv i name d Hi Hdep Hd Hds) as (j & Hji & Hj).
  assert (Hlast : (em ++ new' ++ [d]) !! (length (em ++ new')) = Some d).
  { rewrite app_assoc. rewrite lookup_app_r by lia.
    by rewrite Nat.sub_diag. }
  pose proof (NoDup_lookup _ _ _ _ (inv_nodup _ _ Hinv) Hj Hlast) as ->.
  apply lookup_lt_Some in Hi. rewrite app_assoc, length_app in Hi.
  simpl in Hi. lia.
Qed.

Lemma post_dom_mono (st st' : rstate) em name :
  inv st em → post em name st' → dom st.2 ⊆ dom st'.2.
Proof.
  intros Hinv (new & Hinv' & _). rewrite (inv_resolved _ _ Hinv),
    (inv_resolved _ _ Hinv'). rewrite list_to_set_app_L. set_solver.
Qed.

(** A reference that [resolveRef] got past is a Base Type name or is
    registered. *)
Lemma resolveRef_registered rec (st st' : rstate) ref :
  resolveRef rec all st ref = Returned st' →
  isBaseType ref = true ∨ is_Some (all !! ref).
Proof.
  unfold resolveRef. destruct (isBaseType ref); simpl; [by left|].
  intros H. inv_bind H. right.
  destruct (TypeInfo_Returned _ _ Ha) as [t Ht]. by rewrite Ht.
Qed.

Section Step.
(** The recursive calls, assumed to meet [post]. *)
Variable rec : rstate → string → string → outcome rstate.
Hypothesis rec_post : ∀ st em name super st',
  inv st em → consistent name super →
  rec st name super = Returned st' → post em name st'.

Lemma resolveRef_post st em ref st' :
  inv st em → resolveRef rec all st ref = Returned st' → post em ref st'.
Proof.
  intros Hinv. unfold resolveRef.
  destruct (isBaseType ref) eqn:Hb; simpl.
  - intros [= <-]. exists []. rewrite app_nil_r. auto.
  - intros H. inv_bind H. destruct a as [[n super] c].
    destruct (TypeInfo_Returned _ _ Ha) as [t Ht].
    destruct (all_wf _ _ Ht) as [s Hs].
    assert (info (Some t) = Some (n, super)) as Hi.
    { apply info_Some. exists c. by rewrite <- Ht. }
    rewrite Hs in Hi. simplify_eq.
    eapply rec_post; [done| |done]. by exists t.
Qed.

(** The dependency phase of a call on [name]: after following the
    references [ds] of [name], they are resolved and registered, and
    [name] is not emitted. *)
Definition phase (em : list string) (name : string) (ds : list string)
    (st' : rstate) : Prop :=
  ∃ new, inv st' (em ++ new) ∧ (name ∉ em ++ new)
       ∧ ∀ d, d ∈ ds →
              isBaseType d = true ∨ (d ∈ dom st'.2 ∧ is_Some (all !! d)).

Lemma phase_nil st em name : inv st em → name ∉ em → phase em name [] st.
Proof.
  intros. exists []. rewrite app_nil_r. split_and!; [done..|].
  intros d Hd. by apply elem_of_nil in Hd.
Qed.

Lemma phase_step st em name ds d st1 st2 :
  inv st em → d ∈ deps_of all name →
  phase em name ds st1 →
  resolveRef rec all st1 d = Returned st2 →
  phase em name (ds ++ [d]) st2.
Proof.
  intros Hinv Hd (new1 & Hinv1 & Hname1 & Hds) Hcall.
  pose proof (resolveRef_post _ _ _ _ Hinv1 Hcall) as Hpost.
  pose proof (post_dom_mono _ _ _ _ Hinv1 Hpost) as Hmono.
  pose proof (resolveRef_registered _ _ _ _ Hcall) as Hreg.
  destruct Hpost as (new2 & Hinv2 & Hres & Hlast).
  exists (new1 ++ new2). rewrite app_assoc. split_and!; [done| |].
  - by eapply not_emitted_yet.
  - intros d' [Hd'| ->%list_elem_of_singleton]%elem_of_app.
    + destruct (Hds d' Hd') as [?|[? ?]]; [by left|right].
      split; [set_solver|done].
    + destruct Hres as [?|Hres]; [by left|].
      destruct Hreg as [?|Hreg]; [by left|by right].
Qed.

Lemma resolveFields_phase st em name fields : ∀ ds st1 st2,
  inv st em →
  (∀ f, f ∈ fields → Field_Type f ∈ deps_of all name) →
  phase em name ds st1 →
  resolveFields rec all st1 fields = Returned st2 →
  phase em name (ds ++ map Field_Type fields) st2.
Proof.
  induction fields as [|f fields IH]; intros ds st1 st2 Hinv Hfs Hph; simpl.
  - intros [= <-]. by rewrite app_nil_r.
  - intros H. inv_bind H.
    replace (ds ++ Field_Type f :: map Field_Type fields)
      with ((ds ++ [Field_Type f]) ++ map Field_Type fields)
      by by rewrite <- app_assoc.
    eapply IH; [done| |by eapply phase_step; [| |done..]; [done|]; apply Hfs; left|done].
    intros f' Hf'. apply Hfs. by right.
Qed.
End Step.

Lemma followed_deps_of name super t :
  all !! name = Some t → info (Some t) = Some (name, super) →
  deps_of all name = followed super t.
Proof. intros Ht Hi. unfold deps_of. by rewrite Ht, Hi. Qed.

(** Closing a call: [name] is marked resolved and its descriptor
    appended, after its references. *)
Lemma phase_close (st1 : rstate) em name super t :
  all !! name = Some t → info (Some t) = Some (name, super) →
  isBaseType name = false → name ∉ seeded →
  phase em name (followed super t) st1 →
  post em name (st1.1 ++ [all !! name], <[name := true]> (st1.2)).
Proof.
  intros Ht Hi Hb Hns (new & Hinv & Hname & Hds).
  exists (new ++ [name]). split_and!; [|right|right; eauto].
  - rewrite app_assoc. constructor; simpl.
    + rewrite map_app. simpl. by rewrite (inv_ordered _ _ Hinv).
    + rewrite dom_insert_L, (inv_resolved _ _ Hinv), list_to_set_app_L.
      set_solver.
    + apply NoDup_app. split_and!; [by eapply inv_nodup| |apply NoDup_singleton].
      intros x Hx ->%list_elem_of_singleton. done.
    + intros n [Hn| ->%list_elem_of_singleton]%elem_of_app.
      * by eapply inv_names.
      * split_and!; [done..|]. by rewrite Ht.
    + intros i n r Hn Hr Hrb Hrs.
      destruct (decide (i < length (em ++ new))) as [Hlt|Hge].
      * rewrite lookup_app_l in Hn by done.
        destruct (inv_topo _ _ Hinv i n r Hn Hr Hrb Hrs) as (j & Hj & Hjr).
        exists j. split; [done|]. rewrite lookup_app_l by lia. done.
      * rewrite lookup_app_r in Hn by lia.
        apply list_lookup_singleton_Some in Hn as [Hi0 <-].
        rewrite (followed_deps_of _ _ _ Ht Hi) in Hr.
        destruct (Hds r Hr) as [?|[Hdom _]]; [congruence|].
        rewrite (inv_resolved _ _ Hinv) in Hdom.
        apply elem_of_union in Hdom as [Hs|Hem]; [done|].
        apply elem_of_list_to_set, list_elem_of_lookup in Hem as [j Hj].
        exists j. pose proof (lookup_lt_Some _ _ _ Hj).
        split; [lia|]. by rewrite lookup_app_l.
    + intros n r [Hn| ->%list_elem_of_singleton]%elem_of_app Hr Hrb.
      * by eapply inv_registered.
      * rewrite (followed_deps_of _ _ _ Ht Hi) in Hr.
        destruct (Hds r Hr) as [?|[_ ?]]; [congruence|done].
  - simpl. rewrite dom_insert_L. set_solver.
Qed.

Lemma resolve_post fuel : ∀ st em name super st',
  inv st em → consistent name super →
  resolve fuel all st name super = Returned st' → post em name st'.
Proof.
  induction fuel as [|fuel IH]; intros st em name super st' Hinv Hc;
    [discriminate|]. simpl.
  destruct (bool_decide (is_Some (st.2 !! name))) eqn:Hres; simpl.
  { intros [= <-]. exists []. rewrite app_nil_r. split_and!; [done| |by left].
    right. apply elem_of_dom. by apply bool_decide_eq_true in Hres. }
  destruct (isBaseType name) eqn:Hb; simpl.
  { intros [= <-]. exists []. rewrite app_nil_r. auto. }
  destruct Hc as (t & Ht & Hi).
  assert (Hfresh : name ∉ dom st.2).
  { intros Hin. apply bool_decide_eq_false in Hres. apply Hres.
    by apply elem_of_dom. }
  rewrite (inv_resolved _ _ Hinv) in Hfresh.
  assert (Hname : name ∉ em) by set_solver.
  assert (Hns : name ∉ seeded) by set_solver.
  pose proof (followed_deps_of _ _ _ Ht Hi) as Hdeps.
  pose proof (phase_nil _ _ _ Hinv Hname) as Hnil.
  assert (Hstep : ∀ ds d st1 st2, d ∈ followed super t →
            phase em name ds st1 →
            resolveRef (resolve fuel all) all st1 d = Returned st2 →
            phase em name (ds ++ [d]) st2).
  { intros ds d st1 st2 Hd. eapply phase_step; [exact IH|exact Hinv|].
    by rewrite Hdeps. }
  intros H. inv_bind H. injection H as <-.
  eapply phase_close; [done..|]. rewrite Ht in Ha. simpl in Ha.
  unfold followed in *.
  destruct (in_cases super no_dependencies).
  { by injection Ha as <-. }
  destruct (String.eqb super "Array").
  { inv_bind Ha. apply deref_Returned in Ha0. rewrite Ha0 in *.
    eapply (Hstep []); [|done..]. by left. }
  destruct (String.eqb super "Map").
  { inv_bind Ha. apply deref_Returned in Ha0. rewrite Ha0 in *.
    inv_bind Ha.
    eapply (Hstep [_]); [|eapply (Hstep []); [|done..]|done].
    - right. by left.
    - by left. }
  destruct (String.eqb super "Struct").
  { inv_bind Ha. apply deref_Returned in Ha0. rewrite Ha0 in *.
    eapply (resolveFields_phase _ IH _ _ _ _ []); [exact Hinv| |done..].
    intros f Hf. rewrite Hdeps. by apply list_elem_of_fmap_2. }
  eapply (Hstep []); [|done..]. by left.
Qed.
End Resolver.

(** * The two loops of [Build] *)

Lemma name_of_Some t n : name_of t = Some n ↔ ∃ s, info t = Some (n, s).
Proof.
  unfold name_of. destruct (info t) as [[n' s']|]; simpl; split.
  - intros [= ->]. eauto.
  - by intros [s [= -> _]].
  - done.
  - by intros [s ?].
Qed.

Lemma declared_names_cons t types n :
  name_of t = Some n → declared_names (t :: types) = n :: declared_names types.
Proof. intros H. unfold declared_names. simpl. by rewrite H. Qed.

Lemma collect_spec types : ∀ all0 all,
  collect types all0 = Returned all →
  Forall (λ t, ∃ t', t = Some t' ∧ is_Some (name_of t)) types
  ∧ (∀ k, k ∉ declared_names types → all !! k = all0 !! k)
  ∧ (∀ k, k ∈ declared_names types →
       ∃ t, all !! k = Some t ∧ Some t ∈ types ∧ name_of (Some t) = Some k)
  ∧ (NoDup (declared_names types) →
       ∀ t k, Some t ∈ types → name_of (Some t) = Some k → all !! k = Some t).
Proof.
  induction types as [|t types IH]; intros all0 all H; simpl in H.
  { injection H as <-. split_and!; [constructor|done| |].
    - intros k Hk. by apply elem_of_nil in Hk.
    - intros _ t k Ht. by apply elem_of_nil in Ht. }
  inv_bind H. destruct a as [[n s] c].
  inv_bind H. apply deref_Returned in Ha0 as ->. rename a into t.
  assert (Hn : name_of (Some t) = Some n).
  { apply name_of_Some. exists s. apply info_Some. eauto. }
  rewrite (declared_names_cons _ _ _ Hn).
  destruct (IH _ _ H) as (Hall & Hout & Hin & Huniq). split_and!.
  - constructor; [|done]. exists t. split; [done|]. by rewrite Hn.
  - intros k Hk. apply not_elem_of_cons in Hk as [Hkn Hk].
    rewrite (Hout k Hk). by rewrite lookup_insert_ne.
  - intros k Hk.
    destruct (decide (k ∈ declared_names types)) as [Hk'|Hk'].
    + destruct (Hin k Hk') as (t' & ? & ? & ?). exists t'.
      split_and!; [done|by right|done].
    + apply elem_of_cons in Hk as [->|]; [|done].
      exists t. rewrite (Hout n Hk'), lookup_insert_eq.
      split_and!; [done|by left|done].
  - intros [Hnotin Hnd]%NoDup_cons t' k [Heq|Ht']%elem_of_cons Hk.
    + injection Heq as ->. rewrite Hn in Hk. injection Hk as <-.
      by rewrite (Hout n Hnotin), lookup_insert_eq.
    + by apply Huniq.
Qed.

(** The map built by the first loop has the names of its descriptors as
    keys. *)
Lemma collect_wf types all :
  collect types ∅ = Returned all →
  ∀ k t, all !! k = Some t → ∃ s, info (Some t) = Some (k, s).
Proof.
  intros Hc k t Hk. destruct (collect_spec _ _ _ Hc) as (_ & Hout & Hin & _).
  destruct (decide (k ∈ declared_names types)) as [Hd|Hd].
  - destruct (Hin k Hd) as (t' & Ht' & _ & Hn). rewrite Hk in Ht'.
    injection Ht' as <-. by apply name_of_Some.
  - rewrite (Hout k Hd), lookup_empty in Hk. done.
Qed.

Lemma collect_dom types all k :
  collect types ∅ = Returned all →
  is_Some (all !! k) ↔ k ∈ declared_names types.
Proof.
  intros Hc. destruct (collect_spec _ _ _ Hc) as (_ & Hout & Hin & _). split.
  - intros [t Ht]. destruct (decide (k ∈ declared_names types)); [done|].
    rewrite Hout, lookup_empty in Ht; done.
  - intros Hk. destruct (Hin k Hk) as (t & -> & _). eauto.
Qed.

Lemma collect_returns types : ∀ all0,
  Forall (λ t, is_Some (name_of t)) types →
  ∃ all, collect types all0 = Returned all.
Proof.
  induction types as [|t types IH]; intros all0 Hts; [by eexists|].
  apply Forall_cons in Hts as [[n Hn] Hts].
  apply name_of_Some in Hn as [s [c Hi]%info_Some]. simpl. rewrite Hi.
  destruct (TypeInfo_Returned _ _ Hi) as [t' ->]. simpl. by apply IH.
Qed.

Lemma dom_seed_from namesBaseType : ∀ m0 : gmap string bool,
  dom (foldl (λ resolved bt, <[bt := true]> resolved) m0 namesBaseType)
  = dom m0 ∪ list_to_set namesBaseType.
Proof.
  induction namesBaseType as [|bt l IH]; intros m0; simpl.
  - set_solver.
  - rewrite IH, dom_insert_L. set_solver.
Qed.

Lemma dom_seed namesBaseType :
  dom (seed namesBaseType) = list_to_set namesBaseType.
Proof. unfold seed. rewrite dom_seed_from, dom_empty_L. set_solver. Qed.

Lemma Build_Returned namesBaseType fuel sb s :
  Build namesBaseType fuel sb = Returned s →
  ∃ all st,
    collect (Schema_Types (proto sb)) ∅ = Returned all
    ∧ resolveAll fuel all (Schema_Types (proto sb)) ([], seed namesBaseType)
      = Returned st
    ∧ Schema_Types s = st.1.
Proof.
  unfold Build. intros H. inv_bind H. inv_bind H. injection H as <-.
  exists a, a0. done.
Qed.

Section ResolveAll.
Variable all : gmap string Type_.
Variable seeded : gset string.

Hypothesis all_wf :
  ∀ k t, all !! k = Some t → ∃ s, info (Some t) = Some (k, s).

Lemma resolveAll_post fuel types : ∀ (st : rstate) em st',
  inv all seeded st em →
  (∀ t n s, t ∈ types → info t = Some (n, s) → consistent all n s) →
  resolveAll fuel all types st = Returned st' →
  ∃ new, inv all seeded st' (em ++ new)
       ∧ ∀ n, n ∈ declared_names types →
              isBaseType n = true ∨ n ∈ dom st'.2.
Proof.
  induction types as [|t types IH]; intros st em st' Hinv Hcons H;
    simpl in H.
  { injection H as <-. exists []. rewrite app_nil_r. split; [done|].
    intros n Hn. by apply elem_of_nil in Hn. }
  inv_bind H. destruct a as [[n s] c]. inv_bind H.
  assert (Hi : info t = Some (n, s)) by (apply info_Some; eauto).
  assert (Hpost : post all seeded em n a).
  { eapply resolve_post; [done..| |done]. eapply Hcons; [by left|done]. }
  destruct Hpost as (new1 & Hinv1 & Hres1 & _).
  assert (Hcons' : ∀ t' n' s', t' ∈ types → info t' = Some (n', s') →
            consistent all n' s').
  { intros t' n' s' Ht'. apply Hcons. by right. }
  destruct (IH _ _ _ Hinv1 Hcons' H) as (new2 & Hinv2 & Hres2).
  exists (new1 ++ new2). rewrite app_assoc. split; [done|].
  intros n'. rewrite (declared_names_cons _ _ n)
    by (apply name_of_Some; eauto).
  intros [->|Hn']%elem_of_cons; [|by apply Hres2].
  destruct Hres1 as [?|Hres1]; [by left|right].
  rewrite (inv_resolved _ _ _ _ Hinv1) in Hres1.
  rewrite (inv_resolved _ _ _ _ Hinv2).
  rewrite !list_to_set_app_L in *. set_solver.
Qed.
End ResolveAll.

(** * The recursion bound

    An outcome reached within some bound is the outcome at every larger
    bound: only [OutOfFuel] depends on the fuel. *)

Lemma bind_defined {A B : Type} (m : outcome A) (f : A → outcome B) :
  m ≫= f ≠ OutOfFuel →
  m ≠ OutOfFuel ∧ ∀ a, m = Returned a → f a ≠ OutOfFuel.
Proof.
  destruct m as [a| |]; simpl; intros H; [|done..].
  split; [done|]. by intros a' [= <-].
Qed.

Lemma bind_stable {A B : Type} (m m' : outcome A) (f f' : A → outcome B) :
  m ≫= f ≠ OutOfFuel →
  (m ≠ OutOfFuel → m' = m) →
  (∀ a, f a ≠ OutOfFuel → f' a = f a) →
  m' ≫= f' = m ≫= f.
Proof.
  intros [Hm Hf]%bind_defined Hm' Hf'. rewrite (Hm' Hm).
  destruct m as [a| |]; simpl; [|done..]. apply Hf'. by apply Hf.
Qed.

Section Fuel.
Variable all : gmap string Type_.

(** [rec'] has at least the fuel of [rec]. *)
Definition extends (rec rec' : rstate → string → string → outcome rstate)
    : Prop :=
  ∀ st name super, rec st name super ≠ OutOfFuel →
                   rec' st name super = rec st name super.

Lemma resolveRef_stable rec rec' st ref :
  extends rec rec' →
  resolveRef rec all st ref ≠ OutOfFuel →
  resolveRef rec' all st ref = resolveRef rec all st ref.
Proof.
  intros Hrec. unfold resolveRef. destruct (negb (isBaseType ref)); [|done].
  intros H. apply (bind_stable _ _ _ _ H); [done|].
  intros [[n s] c]. apply Hrec.
Qed.

Lemma resolveFields_stable rec rec' fields : ∀ st,
  extends rec rec' →
  resolveFields rec all st fields ≠ OutOfFuel →
  resolveFields rec' all st fields = resolveFields rec all st fields.
Proof.
  induction fields as [|f fields IH]; intros st Hrec; [done|].
  cbn [resolveFields]. intros H. apply (bind_stable _ _ _ _ H).
  - by apply resolveRef_stable.
  - intros st'. by apply IH.
Qed.

(** One unfolding of [resolve], over the recursive calls [rec]. *)
Definition resolve_step (rec : rstate → string → string → outcome rstate)
    (st : rstate) (name super : string) : outcome rstate :=
  if bool_decide (is_Some (st.2 !! name)) || isBaseType name then mret st
  else
    let t := all !! name in
    st ← (if in_cases super no_dependencies then mret st
          else if String.eqb super "Array" then
            t ← deref t;
            d ← deref (T_ArrayTypeDef t);
            resolveRef rec all st (Array_Items d)
          else if String.eqb super "Map" then
            t ← deref t;
            d ← deref (T_MapTypeDef t);
            st ← resolveRef rec all st (Map_Items d);
            resolveRef rec all st (Map_Keys d)
          else if String.eqb super "Struct" then
            t ← deref t;
            d ← deref (T_StructTypeDef t);
            resolveFields rec all st (Struct_Fields d)
          else resolveRef rec all st super);
    mret (st.1 ++ [t], <[name := true]> (st.2)).

Lemma resolve_unfold fuel st name super :
  resolve (S fuel) all st name super
  = resolve_step (resolve fuel all) st name super.
Proof. done. Qed.

Lemma resolve_step_stable rec rec' :
  extends rec rec' → extends (resolve_step rec) (resolve_step rec').
Proof.
  intros Hrec st name super. unfold resolve_step.
  destruct (bool_decide _ || isBaseType name); [done|].
  intros H. apply (bind_stable _ _ _ _ H); [|done].
  destruct (in_cases super no_dependencies); [done|].
  destruct (String.eqb super "Array").
  { intros H1. apply (bind_stable _ _ _ _ H1); [done|]. intros t H2.
    apply (bind_stable _ _ _ _ H2); [done|]. intros d.
    by apply resolveRef_stable. }
  destruct (String.eqb super "Map").
  { intros H1. apply (bind_stable _ _ _ _ H1); [done|]. intros t H2.
    apply (bind_stable _ _ _ _ H2); [done|]. intros d H3.
    apply (bind_stable _ _ _ _ H3); [by apply resolveRef_stable|].
    intros st'. by apply resolveRef_stable. }
  destruct (String.eqb super "Struct").
  { intros H1. apply (bind_stable _ _ _ _ H1); [done|]. intros t H2.
    apply (bind_stable _ _ _ _ H2); [done|]. intros d.
    by apply resolveFields_stable. }
  by apply resolveRef_stable.
Qed.

Lemma resolve_stable fuel : extends (resolve fuel all) (resolve (S fuel) all).
Proof.
  induction fuel as [|fuel IH]; intros st name super; [done|].
  rewrite (resolve_unfold (S fuel)), (resolve_unfold fuel).
  by apply resolve_step_stable.
Qed.

Lemma resolve_fuel_mono fuel fuel' st name super :
  (fuel ≤ fuel')%nat → resolve fuel all st name super ≠ OutOfFuel →
  resolve fuel' all st name super = resolve fuel all st name super.
Proof.
  induction 1 as [|fuel' Hle IH]; [done|]. intros H.
  rewrite <- (IH H). apply resolve_stable. by rewrite (IH H).
Qed.

Lemma resolveAll_fuel_mono fuel fuel' types : ∀ st,
  (fuel ≤ fuel')%nat → resolveAll fuel all types st ≠ OutOfFuel →
  resolveAll fuel' all types st = resolveAll fuel all types st.
Proof.
  induction types as [|t types IH]; intros st Hle; [done|].
  cbn [resolveAll]. intros H. apply (bind_stable _ _ _ _ H); [done|].
  intros [[n s] c] H1. apply (bind_stable _ _ _ _ H1).
  - by apply resolve_fuel_mono.
  - intros st'. by apply IH.
Qed.
End Fuel.

Lemma Build_fuel_mono namesBaseType fuel fuel' sb :
  (fuel ≤ fuel')%nat → Build namesBaseType fuel sb ≠ OutOfFuel →
  Build namesBaseType fuel' sb = Build namesBaseType fuel sb.
Proof.
  intros Hle. unfold Build. intros H.
  apply (bind_stable _ _ _ _ H); [done|]. intros all H1.
  apply (bind_stable _ _ _ _ H1); [|done].
  by apply resolveAll_fuel_mono.
Qed.

(** * Vocabulary of the properties *)

(** The references the resolver follows from descriptor [t]. *)
Definition references_followed (t : Type_) : list string :=
  match info (Some t) with
  | Some (_, super) => followed super t
  | None => []
  end.

(** A descriptor named [r] occurs in [out] strictly before position [i]. *)
Definition before (out : list (option Type_)) (r : string) (i : nat) : Prop :=
  ∃ j t', j < i ∧ out !! j = Some (Some t') ∧ name_of (Some t') = Some r.

(** Descriptor [b] occurs in [out] strictly before descriptor [a]. *)
Definition precedes (out : list (option Type_)) (b a : Type_) : Prop :=
  ∃ i j, j < i ∧ out !! j = Some (Some b) ∧ out !! i = Some (Some a).

(** [keeps namesBaseType t]: [t] is a descriptor that [resolve] does not
    skip: its name is neither a Base Type name nor an entry of the table
    [namesBaseType], whose entries [Build] marks resolved at the start. *)
Definition keeps (namesBaseType : list string) (t : option Type_) : bool :=
  match name_of t with
  | Some n => negb (isBaseType n) && bool_decide (n ∉ namesBaseType)
  | None => false
  end.

(** [a] is a declared Type that follows a reference to the declared Type
    [b], neither of them skipped. *)
Definition follows (namesBaseType : list string) (types : list (option Type_))
    (a b : Type_) : Prop :=
  Some a ∈ types ∧ keeps namesBaseType (Some a) = true
  ∧ Some b ∈ types ∧ keeps namesBaseType (Some b) = true
  ∧ ∃ r, name_of (Some b) = Some r ∧ r ∈ references_followed a.

(** The outcome is not a finished Schema. *)
Definition no_schema (o : outcome Schema) : Prop := ∀ s, o ≠ Returned s.

(** A computation that exhausts every recursion bound. *)
Definition diverges {A : Type} (run : nat → outcome A) : Prop :=
  ∀ fuel, run fuel = OutOfFuel.

Lemma keeps_true namesBaseType t n :
  name_of t = Some n →
  keeps namesBaseType t = true ↔ isBaseType n = false ∧ n ∉ namesBaseType.
Proof.
  intros Hn. unfold keeps. rewrite Hn, andb_true_iff, negb_true_iff.
  by rewrite bool_decide_eq_true.
Qed.

(** * What [Build] emits when the declared names are unique

    For any table [namesBaseType]. *)

Lemma Build_emitted namesBaseType fuel sb s :
  NoDup (declared_names (Schema_Types (proto sb))) →
  Build namesBaseType fuel sb = Returned s →
  ∃ all st em,
    collect (Schema_Types (proto sb)) ∅ = Returned all
    ∧ Schema_Types s = st.1
    ∧ inv all (list_to_set namesBaseType) st em
    ∧ ∀ n, n ∈ declared_names (Schema_Types (proto sb)) →
           isBaseType n = true ∨ n ∈ namesBaseType ∨ n ∈ em.
Proof.
  intros Hnd (all & st & Hc & Hr & Hs)%Build_Returned.
  pose proof (collect_wf _ _ Hc) as Hwf.
  destruct (collect_spec _ _ _ Hc) as (Hall & _ & _ & Huniq).
  assert (Hinv0 : inv all (list_to_set namesBaseType)
                    ([], seed namesBaseType) []).
  { constructor; simpl; [done| |constructor|..].
    - rewrite dom_seed. set_solver.
    - intros n Hn. by apply elem_of_nil in Hn.
    - intros i n r Hi. by rewrite lookup_nil in Hi.
    - intros n r Hn. by apply elem_of_nil in Hn. }
  assert (Hcons : ∀ t n sup, t ∈ Schema_Types (proto sb) →
            info t = Some (n, sup) → consistent all n sup).
  { intros t n sup Ht Hi. rewrite Forall_forall in Hall.
    destruct (Hall t Ht) as (t' & -> & _). exists t'. split; [|done].
    apply (Huniq Hnd); [done|]. apply name_of_Some. eauto. }
  destruct (resolveAll_post all _ Hwf fuel _ _ _ _ Hinv0 Hcons Hr)
    as (em & Hinv & Hres).
  simpl in Hinv. exists all, st, em. split_and!; [done..|].
  intros n Hn. destruct (Hres n Hn) as [?|Hdom]; [by left|right].
  rewrite (inv_resolved _ _ _ _ Hinv) in Hdom.
  apply elem_of_union in Hdom as [Hs'|Hem]; [left|right].
  - by apply elem_of_list_to_set in Hs'.
  - by apply elem_of_list_to_set in Hem.
Qed.

(** Reading the emitted names back from the output. *)
Lemma emitted_lookup all seeded (st : rstate) em i t :
  (∀ k t, all !! k = Some t → ∃ s, info (Some t) = Some (k, s)) →
  inv all seeded st em →
  st.1 !! i = Some (Some t) ↔
  ∃ n, em !! i = Some n ∧ all !! n = Some t ∧ name_of (Some t) = Some n.
Proof.
  intros Hwf Hinv. rewrite (inv_ordered _ _ _ _ Hinv), list_lookup_fmap. split.
  - destruct (em !! i) as [n|] eqn:Hn; simpl; [|done]. intros [= Ht].
    exists n. split_and!; [done..|]. apply name_of_Some. by apply Hwf.
  - intros (n & -> & Hn & _). simpl. by rewrite Hn.
Qed.

(** A followed reference of an emitted Type that is neither a Base Type
    name nor an entry of the table names a Type emitted before it. *)
Lemma Build_followed_before namesBaseType fuel sb s :
  NoDup (declared_names (Schema_Types (proto sb))) →
  Build namesBaseType fuel sb = Returned s →
  ∀ i t r,
    Schema_Types s !! i = Some (Some t) →
    r ∈ references_followed t → isBaseType r = false →
    r ∉ namesBaseType →
    before (Schema_Types s) r i.
Proof.
  intros Hnd HB.
  destruct (Build_emitted _ _ _ _ Hnd HB)
    as (all & st & em & Hc & -> & Hinv & _).
  pose proof (collect_wf _ _ Hc) as Hwf.
  intros i t r Hi Hr Hrb Hrs.
  apply (emitted_lookup _ _ _ _ _ _ Hwf Hinv) in Hi as (n & Hn & Ht & Hname).
  destruct (inv_topo _ _ _ _ Hinv i n r Hn) as (j & Hji & Hj); [|done| |].
  { unfold deps_of. rewrite Ht. exact Hr. }
  { by rewrite elem_of_list_to_set. }
  destruct (inv_names _ _ _ _ Hinv r) as (_ & _ & [t' Ht']).
  { apply list_elem_of_lookup. eauto. }
  assert (Hname' : name_of (Some t') = Some r)
    by (apply name_of_Some; by apply Hwf).
  exists j, t'. split_and!; [done| |done].
  apply (emitted_lookup _ _ _ _ _ _ Hwf Hinv). by exists r.
Qed.

(** A followed reference of an emitted Type that is not a Base Type name
    names a declared Type, whatever the table holds: [resolveRef] looks the
    reference up before [resolve] consults the resolved set. *)
Lemma Build_followed_declared namesBaseType fuel sb s :
  NoDup (declared_names (Schema_Types (proto sb))) →
  Build namesBaseType fuel sb = Returned s →
  ∀ t r,
    Some t ∈ Schema_Types s →
    r ∈ references_followed t → isBaseType r = false →
    r ∈ declared_names (Schema_Types (proto sb)).
Proof.
  intros Hnd HB.
  destruct (Build_emitted _ _ _ _ Hnd HB)
    as (all & st & em & Hc & -> & Hinv & _).
  pose proof (collect_wf _ _ Hc) as Hwf.
  intros t r [i Hi]%list_elem_of_lookup Hr Hrb.
  apply (emitted_lookup _ _ _ _ _ _ Hwf Hinv) in Hi as (n & Hn & Ht & Hname).
  apply (collect_dom _ _ _ Hc).
  apply (inv_registered _ _ _ _ Hinv n r); [|  |done].
  - apply list_elem_of_lookup. eauto.
  - unfold deps_of. rewrite Ht. exact Hr.
Qed.

Lemma lookup_kept_names namesBaseType (all : gmap string Type_) types :
  Forall (λ t, ∃ t', t = Some t' ∧ is_Some (name_of t)) types →
  (∀ t k, Some t ∈ types → name_of (Some t) = Some k → all !! k = Some t) →
  map (λ n, all !! n)
      (filter (λ n, isBaseType n = false ∧ n ∉ namesBaseType)
              (declared_names types))
  = filter (λ t, keeps namesBaseType t = true) types.
Proof.
  induction types as [|t types IH]; intros Hall Hlook; [done|].
  apply Forall_cons in Hall as [(t' & -> & [n Hn]) Hall].
  rewrite (declared_names_cons _ _ _ Hn), !filter_cons.
  pose proof (keeps_true namesBaseType _ _ Hn) as Hk.
  assert (IH' : map (λ n, all !! n)
                  (filter (λ n, isBaseType n = false ∧ n ∉ namesBaseType)
                          (declared_names types))
                = filter (λ t, keeps namesBaseType t = true) types).
  { apply IH; [done|]. intros t k Ht. apply Hlook. by right. }
  repeat case_decide; try tauto.
  simpl. rewrite IH'. f_equal. apply Hlook; [by left|done].
Qed.

Lemma Build_permutation_kept namesBaseType fuel sb s :
  NoDup (declared_names (Schema_Types (proto sb))) →
  Build namesBaseType fuel sb = Returned s →
  Schema_Types s
  ≡ₚ filter (λ t, keeps namesBaseType t = true) (Schema_Types (proto sb)).
Proof.
  intros Hnd HB.
  destruct (Build_emitted _ _ _ _ Hnd HB)
    as (all & st & em & Hc & -> & Hinv & Hres).
  destruct (collect_spec _ _ _ Hc) as (Hall & _ & _ & Huniq).
  rewrite <- (lookup_kept_names namesBaseType all _ Hall (Huniq Hnd)).
  rewrite (inv_ordered _ _ _ _ Hinv). apply Permutation_map.
  apply NoDup_Permutation; [by eapply inv_nodup|by apply NoDup_filter|].
  intros n. rewrite list_elem_of_filter. split.
  - intros Hn. destruct (inv_names _ _ _ _ Hinv n Hn) as (Hb & Hs & Hsome).
    split_and!; [done| |by apply (collect_dom _ _ _ Hc)].
    by rewrite elem_of_list_to_set in Hs.
  - intros [[Hb Hs] Hn]. destruct (Hres n Hn) as [?|[?|?]]; [congruence|done..].
Qed.

Lemma Build_NoDup namesBaseType fuel sb s :
  NoDup (declared_names (Schema_Types (proto sb))) →
  Build namesBaseType fuel sb = Returned s →
  NoDup (Schema_Types s).
Proof.
  intros Hnd HB.
  destruct (Build_emitted _ _ _ _ Hnd HB)
    as (all & st & em & Hc & -> & Hinv & _).
  pose proof (collect_wf _ _ Hc) as Hwf.
  rewrite (inv_ordered _ _ _ _ Hinv).
  apply (NoDup_fmap_2_strong (λ n, all !! n)); [|by eapply inv_nodup].
  intros x y Hx Hy Heq.
  destruct (inv_names _ _ _ _ Hinv x Hx) as (_ & _ & [tx Htx]).
  destruct (Hwf _ _ Htx) as [sx Hsx].
  rewrite Heq in Htx. destruct (Hwf _ _ Htx) as [sy Hsy]. congruence.
Qed.

(** Along any chain of followed references between declared Types that
    are not skipped, the referenced Type comes first. *)
Lemma Build_chain_precedes namesBaseType fuel sb s :
  NoDup (declared_names (Schema_Types (proto sb))) →
  Build namesBaseType fuel sb = Returned s →
  ∀ a b, tc (follows namesBaseType (Schema_Types (proto sb))) a b →
         precedes (Schema_Types s) b a.
Proof.
  intros Hnd HB.
  pose proof (Build_permutation_kept _ _ _ _ Hnd HB) as Hperm.
  pose proof (Build_NoDup _ _ _ _ Hnd HB) as Hnodup.
  destruct (Build_emitted _ _ _ _ Hnd HB)
    as (all & st & em & Hc & Hst & Hinv & _).
  destruct (collect_spec _ _ _ Hc) as (_ & _ & _ & Huniq).
  assert (Hstep : ∀ a b, follows namesBaseType (Schema_Types (proto sb)) a b →
            precedes (Schema_Types s) b a).
  { intros a b (Ha & Hka & Hb & Hkb & r & Hr & Hra).
    assert (Some a ∈ Schema_Types s) as [i Hi]%list_elem_of_lookup.
    { rewrite Hperm. by apply list_elem_of_filter. }
    destruct (proj1 (keeps_true namesBaseType _ _ Hr) Hkb) as [Hrb Hrs].
    destruct (Build_followed_before _ _ _ _ Hnd HB i a r Hi Hra Hrb Hrs)
      as (j & t' & Hji & Hj & Hn').
    assert (Some t' ∈ Schema_Types (proto sb)) as Ht'.
    { assert (Some t' ∈ Schema_Types s) as Hin
        by (apply list_elem_of_lookup; eauto).
      rewrite Hperm in Hin. by apply list_elem_of_filter in Hin as [_ ?]. }
    assert (t' = b) as ->.
    { pose proof (Huniq Hnd _ _ Ht' Hn') as H1.
      pose proof (Huniq Hnd _ _ Hb Hr) as H2. congruence. }
    by exists i, j. }
  intros a b Hab. induction Hab as [a b Hab|a b c Hab Hbc IH].
  - by apply Hstep.
  - destruct (Hstep _ _ Hab) as (i & j & Hji & Hj & Hi).
    destruct IH as (i' & j' & Hji' & Hj' & Hi').
    pose proof (NoDup_lookup _ _ _ _ Hnodup Hj Hi') as ->.
    exists i, j'. split_and!; [lia|done..].
Qed.

(** * What [Build] emits in any case *)

(** An emitted entry: a descriptor whose name is not a Base Type name. *)
Definition emitted_ok (t : option Type_) : Prop :=
  ∃ t' n, t = Some t' ∧ name_of (Some t') = Some n ∧ isBaseType n = false.

Section Emits.
Variable all : gmap string Type_.
Hypothesis all_wf :
  ∀ k t, all !! k = Some t → ∃ s, info (Some t) = Some (k, s).

Definition emits (rec : rstate → string → string → outcome rstate) : Prop :=
  ∀ st name super st',
    Forall emitted_ok st.1 → is_Some (all !! name) →
    rec st name super = Returned st' → Forall emitted_ok st'.1.

Lemma resolveRef_emits rec (st st' : rstate) ref :
  emits rec → Forall emitted_ok st.1 →
  resolveRef rec all st ref = Returned st' → Forall emitted_ok st'.1.
Proof.
  intros Hrec Hst. unfold resolveRef. destruct (isBaseType ref); simpl.
  - by intros [= <-].
  - intros H. inv_bind H. destruct a as [[n s] c].
    destruct (TypeInfo_Returned _ _ Ha) as [t Ht].
    eapply Hrec; [done| |done]. by rewrite Ht.
Qed.

Lemma resolveFields_emits rec fields : ∀ (st st' : rstate),
  emits rec → Forall emitted_ok st.1 →
  resolveFields rec all st fields = Returned st' → Forall emitted_ok st'.1.
Proof.
  induction fields as [|f fields IH]; intros st st' Hrec Hst; simpl.
  - by intros [= <-].
  - intros H. inv_bind H. eapply IH; [done| |done].
    by eapply resolveRef_emits.
Qed.

Lemma resolve_emits fuel : emits (resolve fuel all).
Proof.
  induction fuel as [|fuel IH]; intros st name super st' Hst [t Ht];
    [discriminate|]. simpl.
  destruct (bool_decide (is_Some (st.2 !! name))); simpl;
    [by intros [= <-]|].
  destruct (isBaseType name) eqn:Hb; simpl; [by intros [= <-]|].
  intros H. inv_bind H. injection H as <-. simpl.
  apply Forall_app. split.
  - rewrite Ht in Ha. simpl in Ha.
    destruct (in_cases super no_dependencies); [by injection Ha as <-|].
    destruct (String.eqb super "Array").
    { inv_bind Ha. by eapply resolveRef_emits. }
    destruct (String.eqb super "Map").
    { inv_bind Ha. inv_bind Ha.
      eapply resolveRef_emits; [done| |done]. by eapply resolveRef_emits. }
    destruct (String.eqb super "Struct").
    { inv_bind Ha. by eapply resolveFields_emits. }
    by eapply resolveRef_emits.
  - apply Forall_singleton. exists t, name. split_and!; [done| |done].
    apply name_of_Some. by apply all_wf.
Qed.

Lemma resolveAll_emits fuel types : ∀ (st st' : rstate),
  Forall emitted_ok st.1 →
  (∀ t n, t ∈ types → name_of t = Some n → is_Some (all !! n)) →
  resolveAll fuel all types st = Returned st' → Forall emitted_ok st'.1.
Proof.
  induction types as [|t types IH]; intros st st' Hst Hin H; simpl in H.
  - by injection H as <-.
  - inv_bind H. destruct a as [[n s] c]. inv_bind H.
    eapply IH; [|intros t' n' Ht'; apply Hin; by right|done].
    eapply resolve_emits; [done| |done].
    apply (Hin t); [by left|]. apply name_of_Some. exists s.
    apply info_Some. eauto.
Qed.
End Emits.

Lemma Build_emits namesBaseType fuel sb s :
  Build namesBaseType fuel sb = Returned s →
  Forall emitted_ok (Schema_Types s).
Proof.
  intros (all & st & Hc & Hr & ->)%Build_Returned.
  eapply (resolveAll_emits all (collect_wf _ _ Hc)); [|
    |done]; [by constructor|].
  intros t n Ht Hn. apply (collect_dom _ _ _ Hc).
  apply list_elem_of_omap. eauto.
Qed.

(** * Descriptors registered under Base Type names are never read *)

(** Two name-to-descriptor maps that agree outside the Base Type names. *)
Definition agree (all all' : gmap string Type_) : Prop :=
  ∀ k, isBaseType k = false → all !! k = all' !! k.

Definition outcome_rel {A : Type} (R : A → A → Prop) (o o' : outcome A) : Prop :=
  match o, o' with
  | Returned a, Returned a' => R a a'
  | Panic, Panic => True
  | OutOfFuel, OutOfFuel => True
  | _, _ => False
  end.

Lemma bind_ext {A B : Type} (m : outcome A) (f g : A → outcome B) :
  (∀ a, f a = g a) → m ≫= f = m ≫= g.
Proof. intros H. destruct m; simpl; auto. Qed.

Lemma agree_insert all all' k t :
  agree all all' → agree (<[k := t]> all) (<[k := t]> all').
Proof.
  intros H k' Hk'. destruct (decide (k = k')) as [->|].
  - by rewrite !lookup_insert_eq.
  - rewrite !lookup_insert_ne by done. by apply H.
Qed.

Section Agree.
Variables all all' : gmap string Type_.
Hypothesis all_agree : agree all all'.

Lemma resolveRef_agree rec rec' st ref :
  (∀ st name super, rec st name super = rec' st name super) →
  resolveRef rec all st ref = resolveRef rec' all' st ref.
Proof.
  intros Hrec. unfold resolveRef. destruct (isBaseType ref) eqn:Hb; simpl;
    [done|]. rewrite (all_agree _ Hb). apply bind_ext.
  intros [[n s] c]. apply Hrec.
Qed.

Lemma resolveFields_agree rec rec' fields : ∀ st,
  (∀ st name super, rec st name super = rec' st name super) →
  resolveFields rec all st fields = resolveFields rec' all' st fields.
Proof.
  induction fields as [|f fields IH]; intros st Hrec; simpl; [done|].
  rewrite (resolveRef_agree rec rec') by done. apply bind_ext.
  intros st'. by apply IH.
Qed.

Lemma resolve_agree fuel : ∀ st name super,
  resolve fuel all st name super = resolve fuel all' st name super.
Proof.
  induction fuel as [|fuel IH]; intros st name super; [done|]. simpl.
  destruct (bool_decide (is_Some (st.2 !! name))); simpl; [done|].
  destruct (isBaseType name) eqn:Hb; simpl; [done|].
  rewrite (all_agree _ Hb).
  assert (Hdeps : ∀ (o o' : outcome rstate), o = o' →
            o ≫= (λ st0, mret (st0.1 ++ [all' !! name],
                               <[name := true]> (st0.2)))
            = o' ≫= (λ st0, mret (st0.1 ++ [all' !! name],
                                  <[name := true]> (st0.2))))
    by (by intros o o' ->).
  apply Hdeps.
  destruct (in_cases super no_dependencies); [done|].
  destruct (String.eqb super "Array").
  { apply bind_ext. intros t. apply bind_ext. intros d.
    by apply resolveRef_agree. }
  destruct (String.eqb super "Map").
  { apply bind_ext. intros t. apply bind_ext. intros d.
    rewrite (resolveRef_agree (resolve fuel all) (resolve fuel all')) by done.
    apply bind_ext. intros st'. by apply resolveRef_agree. }
  destruct (String.eqb super "Struct").
  { apply bind_ext. intros t. apply bind_ext. intros d.
    by apply resolveFields_agree. }
  by apply resolveRef_agree.
Qed.

Lemma resolveAll_agree fuel types : ∀ st,
  resolveAll fuel all types st = resolveAll fuel all' types st.
Proof.
  induction types as [|t types IH]; intros st; simpl; [done|].
  apply bind_ext. intros [[n s] c]. rewrite resolve_agree.
  apply bind_ext. intros st'. apply IH.
Qed.
End Agree.

Lemma collect_agree types : ∀ all all',
  agree all all' → outcome_rel agree (collect types all) (collect types all').
Proof.
  induction types as [|t types IH]; intros all all' H; simpl; [done|].
  destruct (TypeInfo t) as [[[n s] c]| |]; simpl; [|done..].
  destruct t as [t|]; simpl; [|done]. apply IH. by apply agree_insert.
Qed.

(** Leaving out a descriptor named like a Base Type changes neither loop. *)
Lemma collect_skip t n l2 : ∀ l1 all all',
  name_of (Some t) = Some n → isBaseType n = true → agree all all' →
  outcome_rel agree (collect (l1 ++ Some t :: l2) all) (collect (l1 ++ l2) all').
Proof.
  induction l1 as [|x l1 IH]; intros all all' Hn Hb H; simpl.
  - apply name_of_Some in Hn as [s [c Hi]%info_Some]. rewrite Hi. simpl.
    apply collect_agree. intros k Hk. rewrite lookup_insert_ne; [by apply H|].
    intros ->. congruence.
  - destruct (TypeInfo x) as [[[n' s'] c']| |]; simpl; [|done..].
    destruct x as [x|]; simpl; [|done]. apply IH; [done..|].
    by apply agree_insert.
Qed.

Lemma resolveAll_skip fuel all all' t n l2 : ∀ l1 st,
  name_of (Some t) = Some n → isBaseType n = true → agree all all' →
  resolveAll (S fuel) all (l1 ++ Some t :: l2) st
  = resolveAll (S fuel) all' (l1 ++ l2) st.
Proof.
  induction l1 as [|x l1 IH]; intros st Hn Hb H.
  - apply name_of_Some in Hn as [s [c Hi]%info_Some].
    change (resolveAll (S fuel) all ([] ++ Some t :: l2) st)
      with ('(name, super, _) ← TypeInfo (Some t);
            st ← resolve (S fuel) all st name super;
            resolveAll (S fuel) all l2 st).
    rewrite Hi. simpl. rewrite Hb, orb_true_r. simpl.
    by apply resolveAll_agree.
  - change (resolveAll (S fuel) all ((x :: l1) ++ Some t :: l2) st)
      with ('(name, super, _) ← TypeInfo x;
            st ← resolve (S fuel) all st name super;
            resolveAll (S fuel) all (l1 ++ Some t :: l2) st).
    change (resolveAll (S fuel) all' ((x :: l1) ++ l2) st)
      with ('(name, super, _) ← TypeInfo x;
            st ← resolve (S fuel) all' st name super;
            resolveAll (S fuel) all' (l1 ++ l2) st).
    apply bind_ext. intros [[n' s'] c'].
    rewrite (resolve_agree all all' H). apply bind_ext. intros st'.
    by apply IH.
Qed.

(** * Declared Types already in order *)

(** The definition that the [switch super] of [resolve] dereferences is
    present. *)
Definition defs_present (t : option Type_) : bool :=
  match t with
  | Some t' =>
      match info t with
      | Some (_, super) =>
          if String.eqb super "Array" then bool_decide (is_Some (T_ArrayTypeDef t'))
          else if String.eqb super "Map" then bool_decide (is_Some (T_MapTypeDef t'))
          else if String.eqb super "Struct" then bool_decide (is_Some (T_StructTypeDef t'))
          else true
      | None => false
      end
  | None => false
  end.

Section InOrder.
Variable all : gmap string Type_.
Hypothesis all_wf :
  ∀ k t, all !! k = Some t → ∃ s, info (Some t) = Some (k, s).

(** Reference [r] needs no work in state [st]. *)
Definition settled (st : rstate) (r : string) : Prop :=
  isBaseType r = true ∨ (is_Some (st.2 !! r) ∧ is_Some (all !! r)).

Lemma resolveRef_settled fuel st r :
  settled st r → resolveRef (resolve (S fuel) all) all st r = Returned st.
Proof.
  unfold resolveRef. intros [->|[Hres [t Ht]]]; [done|].
  destruct (isBaseType r); [done|]. simpl.
  destruct (all_wf _ _ Ht) as [s [c Hi]%info_Some]. rewrite Ht, Hi. simpl.
  by rewrite bool_decide_eq_true_2.
Qed.

Lemma resolveFields_settled fuel st fields :
  (∀ f, f ∈ fields → settled st (Field_Type f)) →
  resolveFields (resolve (S fuel) all) all st fields = Returned st.
Proof.
  induction fields as [|f fields IH]; intros H; cbn [resolveFields];
    [done|].
  rewrite resolveRef_settled by (apply H; by left).
  rewrite bind_Returned_l. apply IH. intros f' Hf'. apply H. by right.
Qed.

Lemma resolve_settled fuel st name super t :
  all !! name = Some t → info (Some t) = Some (name, super) →
  st.2 !! name = None → isBaseType name = false →
  defs_present (Some t) = true →
  (∀ r, r ∈ followed super t → settled st r) →
  resolve (S (S fuel)) all st name super
  = Returned (st.1 ++ [Some t], <[name := true]> (st.2)).
Proof.
  intros Ht Hi Hres Hb Hdefs Hrefs.
  change (resolve (S (S fuel)) all st name super) with
    (if bool_decide (is_Some (st.2 !! name)) || isBaseType name then mret st
     else
       let t := all !! name in
       st ← (if in_cases super no_dependencies then mret st
             else if String.eqb super "Array" then
               t ← deref t;
               d ← deref (T_ArrayTypeDef t);
               resolveRef (resolve (S fuel) all) all st (Array_Items d)
             else if String.eqb super "Map" then
               t ← deref t;
               d ← deref (T_MapTypeDef t);
               st ← resolveRef (resolve (S fuel) all) all st (Map_Items d);
               resolveRef (resolve (S fuel) all) all st (Map_Keys d)
             else if String.eqb super "Struct" then
               t ← deref t;
               d ← deref (T_StructTypeDef t);
               resolveFields (resolve (S fuel) all) all st (Struct_Fields d)
             else resolveRef (resolve (S fuel) all) all st super);
       mret (st.1 ++ [t], <[name := true]> (st.2))).
  rewrite Hres, bool_decide_eq_false_2 by (by intros [? ?]).
  rewrite Hb. cbn [orb]. cbv zeta. rewrite Ht.
  unfold defs_present in Hdefs. rewrite Hi in Hdefs.
  unfold followed in Hrefs.
  destruct (in_cases super no_dependencies); [done|].
  destruct (String.eqb super "Array").
  { apply bool_decide_eq_true in Hdefs as [d Hd]. rewrite Hd in Hrefs.
    rewrite deref_Some, bind_Returned_l, Hd, deref_Some, bind_Returned_l.
    rewrite resolveRef_settled by (apply Hrefs; by left). done. }
  destruct (String.eqb super "Map").
  { apply bool_decide_eq_true in Hdefs as [d Hd]. rewrite Hd in Hrefs.
    rewrite deref_Some, bind_Returned_l, Hd, deref_Some, bind_Returned_l.
    rewrite resolveRef_settled by (apply Hrefs; by left).
    rewrite bind_Returned_l.
    rewrite resolveRef_settled by (apply Hrefs; right; by left). done. }
  destruct (String.eqb super "Struct").
  { apply bool_decide_eq_true in Hdefs as [d Hd]. rewrite Hd in Hrefs.
    rewrite deref_Some, bind_Returned_l, Hd, deref_Some, bind_Returned_l.
    rewrite resolveFields_settled; [done|].
    intros f Hf. apply Hrefs. by apply list_elem_of_fmap_2. }
  rewrite resolveRef_settled by (apply Hrefs; by left). done.
Qed.
End InOrder.

Lemma resolveAll_in_order fuel all namesBaseType rest :
  (∀ k t, all !! k = Some t → ∃ s, info (Some t) = Some (k, s)) →
  ∀ pre (resolved : gmap string bool),
    dom resolved = list_to_set namesBaseType
                   ∪ list_to_set (declared_names pre) →
    NoDup (declared_names (pre ++ rest)) →
    (∀ t k, Some t ∈ pre ++ rest → name_of (Some t) = Some k →
            all !! k = Some t) →
    Forall (λ t, keeps namesBaseType t = true) rest →
    Forall (λ t, defs_present t = true) rest →
    (∀ k t r, rest !! k = Some (Some t) → r ∈ references_followed t →
              isBaseType r = false → before (pre ++ rest) r (length pre + k)) →
    ∃ resolved',
      resolveAll (S (S fuel)) all rest (pre, resolved)
      = Returned (pre ++ rest, resolved').
Proof.
  intros Hwf. induction rest as [|t rest IH];
    intros pre resolved Hdom Hnd Hlook Hkeep Hdefs Hord.
  { exists resolved. by rewrite app_nil_r. }
  apply Forall_cons in Hkeep as [Hk Hkeep].
  apply Forall_cons in Hdefs as [Hd Hdefs].
  destruct t as [t|]; [|done].
  destruct (name_of (Some t)) as [n|] eqn:Hn;
    [|by unfold keeps in Hk; rewrite Hn in Hk].
  destruct (proj1 (keeps_true namesBaseType _ _ Hn) Hk) as [Hb Hns].
  assert (Ht : all !! n = Some t).
  { apply Hlook; [|done]. apply elem_of_app. right. by left. }
  destruct (Hwf _ _ Ht) as [s Hi].
  assert (Hnames : declared_names (pre ++ Some t :: rest)
                   = declared_names pre ++ n :: declared_names rest).
  { unfold declared_names. rewrite omap_app. simpl. by rewrite Hn. }
  rewrite Hnames in Hnd.
  assert (Hfresh : resolved !! n = None).
  { apply not_elem_of_dom. rewrite Hdom. intros [Hs|Hp]%elem_of_union.
    - by apply elem_of_list_to_set in Hs.
    - apply elem_of_list_to_set in Hp. apply NoDup_app in Hnd as (_ & Hnd & _).
      apply (Hnd n Hp). by left. }
  assert (Hstep : resolve (S (S fuel)) all (pre, resolved) n s
                  = Returned (pre ++ [Some t], <[n := true]> resolved)).
  { apply (resolve_settled all Hwf); [done..|].
    intros r Hr. destruct (isBaseType r) eqn:Hrb; [by left|right].
    destruct (Hord 0 t r) as (j & t' & Hj & Hlk & Hn'); [done| |done|].
    { unfold references_followed. by rewrite Hi. }
    rewrite Nat.add_0_r in Hj. rewrite lookup_app_l in Hlk by done.
    assert (Hin : Some t' ∈ pre) by (apply list_elem_of_lookup; eauto).
    split.
    - simpl. apply elem_of_dom. rewrite Hdom. apply elem_of_union_r.
      apply elem_of_list_to_set, list_elem_of_omap. eauto.
    - exists t'. apply Hlook; [|done]. apply elem_of_app. by left. }
  destruct (IH (pre ++ [Some t]) (<[n := true]> resolved)) as [resolved' Hrest].
  - rewrite dom_insert_L, Hdom. unfold declared_names. rewrite omap_app. simpl.
    rewrite Hn. simpl. rewrite list_to_set_app_L. set_solver.
  - rewrite <- app_assoc. simpl. by rewrite Hnames.
  - rewrite <- app_assoc. exact Hlook.
  - done.
  - done.
  - intros k t' r Hk' Hr Hrb. rewrite <- app_assoc. simpl.
    rewrite length_app. simpl.
    replace (length pre + 1 + k) with (length pre + S k) by lia.
    by apply (Hord (S k) t' r).
  - exists resolved'.
    change (resolveAll (S (S fuel)) all (Some t :: rest) (pre, resolved))
      with ('(name, super, _) ← TypeInfo (Some t);
            st ← resolve (S (S fuel)) all (pre, resolved) name super;
            resolveAll (S (S fuel)) all rest st).
    apply info_Some in Hi as [c Hi]. rewrite Hi, bind_Returned_l.
    cbv beta iota. rewrite Hstep, bind_Returned_l, Hrest.
    by rewrite <- app_assoc.
Qed.

(** * A pair of Types that extend each other *)

Lemma not_base_switch x :
  isBaseType x = false →
  in_cases x no_dependencies = false
  ∧ String.eqb x "Array" = false ∧ String.eqb x "Map" = false
  ∧ String.eqb x "Struct" = false.
Proof.
  unfold isBaseType, in_cases, no_dependencies. simpl. intros H.
  repeat match type of H with
         | context [String.eqb x ?s] =>
             destruct (String.eqb x s); simpl in H; [discriminate|]
         end.
  done.
Qed.

Lemma mutual_pair_diverges all a b ta tb :
  all !! a = Some ta → info (Some ta) = Some (a, b) →
  all !! b = Some tb → info (Some tb) = Some (b, a) →
  isBaseType a = false → isBaseType b = false →
  ∀ fuel (st : rstate), st.2 !! a = None → st.2 !! b = None →
    resolve fuel all st a b = OutOfFuel ∧ resolve fuel all st b a = OutOfFuel.
Proof.
  intros Ha [ca Hia]%info_Some Hb [cb Hib]%info_Some Hna Hnb.
  destruct (not_base_switch _ Hna) as (Ha1 & Ha2 & Ha3 & Ha4).
  destruct (not_base_switch _ Hnb) as (Hb1 & Hb2 & Hb3 & Hb4).
  induction fuel as [|fuel IH]; intros st Hra Hrb; [done|].
  destruct (IH st Hra Hrb) as [IHa IHb]. split; simpl.
  - rewrite Hra, bool_decide_eq_false_2 by (by intros [? ?]).
    rewrite Hna, Hb1, Hb2, Hb3, Hb4. simpl. unfold resolveRef.
    rewrite Hnb, Hb, Hib. simpl. by rewrite IHb.
  - rewrite Hrb, bool_decide_eq_false_2 by (by intros [? ?]).
    rewrite Hnb, Ha1, Ha2, Ha3, Ha4. simpl. unfold resolveRef.
    rewrite Hna, Ha, Hia. simpl. by rewrite IHa.
Qed.

(** * Outcomes without a nil dereference

    When every registered descriptor holds the definition its supertype
    selects and every reference the resolver follows is a Base Type name or
    registered, no call of the resolver dereferences nil. *)

Lemma bind_no_panic {A B : Type} (m : outcome A) (f : A → outcome B) :
  m ≠ Panic → (∀ a, m = Returned a → f a ≠ Panic) → m ≫= f ≠ Panic.
Proof. destruct m as [a| |]; simpl; intros Hm Hf; [by apply Hf|done..]. Qed.

Section NoPanic.
Variable all : gmap string Type_.

Hypothesis all_wf :
  ∀ k t, all !! k = Some t → ∃ s, info (Some t) = Some (k, s).
Hypothesis all_defs :
  ∀ k t, all !! k = Some t → defs_present (Some t) = true.
Hypothesis all_closed : ∀ k t r,
  all !! k = Some t → r ∈ references_followed t →
  isBaseType r = true ∨ is_Some (all !! r).

Definition safe (rec : rstate → string → string → outcome rstate) : Prop :=
  ∀ st name super, consistent all name super → rec st name super ≠ Panic.

Lemma resolveRef_no_panic rec st r :
  safe rec → isBaseType r = true ∨ is_Some (all !! r) →
  resolveRef rec all st r ≠ Panic.
Proof.
  intros Hrec Hr. unfold resolveRef.
  destruct (isBaseType r) eqn:Hb; simpl; [done|].
  destruct Hr as [?|[t Ht]]; [done|].
  destruct (all_wf _ _ Ht) as [s Hi]. pose proof Hi as [c Hc]%info_Some.
  rewrite Ht, Hc. simpl. apply Hrec. by exists t.
Qed.

Lemma resolveFields_no_panic rec fields : ∀ st,
  safe rec →
  (∀ f, f ∈ fields → isBaseType (Field_Type f) = true
                     ∨ is_Some (all !! Field_Type f)) →
  resolveFields rec all st fields ≠ Panic.
Proof.
  induction fields as [|f fields IH]; intros st Hrec Hfs;
    cbn [resolveFields]; [done|].
  apply bind_no_panic.
  - apply resolveRef_no_panic; [done|]. apply Hfs. by left.
  - intros st' _. apply IH; [done|]. intros f' Hf'. apply Hfs. by right.
Qed.

Lemma resolve_no_panic fuel : safe (resolve fuel all).
Proof.
  induction fuel as [|fuel IH]; intros st name super (t & Ht & Hi); [done|].
  rewrite resolve_unfold. unfold resolve_step.
  destruct (bool_decide _ || isBaseType name); [done|]. cbv zeta.
  apply bind_no_panic; [|done].
  pose proof (all_defs _ _ Ht) as Hdefs.
  assert (Hrefs : ∀ r, r ∈ followed super t →
            isBaseType r = true ∨ is_Some (all !! r)).
  { intros r Hr. apply (all_closed name t); [done|].
    unfold references_followed. by rewrite Hi. }
  rewrite Ht. unfold defs_present in Hdefs. rewrite Hi in Hdefs.
  unfold followed in Hrefs.
  destruct (in_cases super no_dependencies); [done|].
  destruct (String.eqb super "Array").
  { apply bool_decide_eq_true in Hdefs as [d Hd]. rewrite Hd in Hrefs.
    rewrite deref_Some, bind_Returned_l, Hd, deref_Some, bind_Returned_l.
    apply resolveRef_no_panic; [done|]. apply Hrefs. by left. }
  destruct (String.eqb super "Map").
  { apply bool_decide_eq_true in Hdefs as [d Hd]. rewrite Hd in Hrefs.
    rewrite deref_Some, bind_Returned_l, Hd, deref_Some, bind_Returned_l.
    apply bind_no_panic.
    - apply resolveRef_no_panic; [done|]. apply Hrefs. by left.
    - intros st' _. apply resolveRef_no_panic; [done|].
      apply Hrefs. right. by left. }
  destruct (String.eqb super "Struct").
  { apply bool_decide_eq_true in Hdefs as [d Hd]. rewrite Hd in Hrefs.
    rewrite deref_Some, bind_Returned_l, Hd, deref_Some, bind_Returned_l.
    apply resolveFields_no_panic; [done|].
    intros f Hf. apply Hrefs. by apply list_elem_of_fmap_2. }
  apply resolveRef_no_panic; [done|]. apply Hrefs. by left.
Qed.

Lemma resolveAll_no_panic fuel types : ∀ st,
  (∀ t, t ∈ types → ∃ n s, info t = Some (n, s) ∧ consistent all n s) →
  resolveAll fuel all types st ≠ Panic.
Proof.
  induction types as [|t types IH]; intros st Hts; cbn [resolveAll]; [done|].
  destruct (Hts t) as (n & s & Hi & Hc); [by left|].
  pose proof Hi as [c Hti]%info_Some. rewrite Hti, bind_Returned_l.
  cbv beta iota. apply bind_no_panic.
  - by apply resolve_no_panic.
  - intros st' _. apply IH. intros t' Ht'. apply Hts. by right.
Qed.
End NoPanic.

(** With unique names, the definitions present and no dangling followed
    reference, [Build] dereferences no nil. *)
Lemma Build_no_panic namesBaseType fuel sb :
  NoDup (declared_names (Schema_Types (proto sb))) →
  Forall (λ t, defs_present t = true) (Schema_Types (proto sb)) →
  (∀ t r, Some t ∈ Schema_Types (proto sb) → r ∈ references_followed t →
          isBaseType r = false →
          r ∈ declared_names (Schema_Types (proto sb))) →
  Build namesBaseType fuel sb ≠ Panic.
Proof.
  intros Hnd Hdefs Hclosed.
  assert (Hnames : Forall (λ t, is_Some (name_of t)) (Schema_Types (proto sb))).
  { eapply Forall_impl; [exact Hdefs|]. intros [t|] Ht; [|done].
    unfold defs_present in Ht. unfold name_of.
    destruct (info (Some t)) as [[n s]|]; [by eexists|done]. }
  destruct (collect_returns _ ∅ Hnames) as [all Hc].
  unfold Build. rewrite Hc, bind_Returned_l.
  pose proof (collect_wf _ _ Hc) as Hwf.
  destruct (collect_spec _ _ _ Hc) as (Hall & Hout & Hin & Huniq).
  assert (Hreg : ∀ k t, all !! k = Some t → Some t ∈ Schema_Types (proto sb)).
  { intros k t Hk. destruct (Hin k) as (t' & Ht' & Hmem & _).
    - apply (collect_dom _ _ k Hc). by eexists.
    - rewrite Hk in Ht'. by injection Ht' as <-. }
  apply bind_no_panic; [|done].
  apply (resolveAll_no_panic all Hwf).
  - intros k t Hk. rewrite Forall_forall in Hdefs. apply Hdefs. by eapply Hreg.
  - intros k t r Hk Hr. destruct (isBaseType r) eqn:Hb; [by left|right].
    apply (collect_dom _ _ _ Hc). eapply Hclosed; [by eapply Hreg|done..].
  - intros t Ht. rewrite Forall_forall in Hall.
    destruct (Hall t Ht) as (t' & -> & [n Hn]).
    pose proof Hn as [s Hi]%name_of_Some. exists n, s. split; [done|].
    exists t'. split; [|done]. by apply (Huniq Hnd).
Qed.

(** * The String type builder *)

(** No pattern, no size bound and no enumerated values are configured. *)
Definition unconstrained (d : StringTypeDef) : Prop :=
  String_Pattern d = "" ∧ String_MaxSize d = None
  ∧ String_MinSize d = None ∧ String_Values d = None.

(** C8: a String builder with no pattern, no minimum or maximum size and no
    enumerated values builds an Alias descriptor that carries only the
    supertype, the name and the comment; with any of these constraints it
    builds a String descriptor holding the builder's definition. *)
Theorem StringTypeBuilder_Build_collapses (tb : StringTypeBuilder.t) :
  let d := StringTypeBuilder.st tb in
  (unconstrained d →
   StringTypeBuilder.Build tb
   = mkType TypeVariantAliasTypeDef
       (Some (mkAliasTypeDef (String_Type d) (String_Name d) (String_Comment d)))
       None None None None None None None)
  ∧ (¬ unconstrained d →
     StringTypeBuilder.Build tb
     = mkType TypeVariantStringTypeDef None (Some d) None None None None None
         None).
Proof.
  intros d. unfold StringTypeBuilder.Build, unconstrained. fold d.
  destruct (String.eqb_spec (String_Pattern d) "") as [Hp|Hp]; simpl.
  2: { split; [by intros [? _]|done]. }
  destruct (decide (String_MaxSize d = None)) as [Hmax|Hmax].
  2: { rewrite bool_decide_eq_false_2 by done. simpl.
       split; [by intros (_ & ? & _)|done]. }
  destruct (decide (String_MinSize d = None)) as [Hmin|Hmin].
  2: { rewrite bool_decide_eq_true_2, bool_decide_eq_false_2 by done. simpl.
       split; [by intros (_ & _ & ? & _)|done]. }
  destruct (decide (String_Values d = None)) as [Hv|Hv].
  2: { rewrite !bool_decide_eq_true_2 by done.
       rewrite bool_decide_eq_false_2 by done. simpl.
       split; [by intros (_ & _ & _ & ?)|done]. }
  rewrite !bool_decide_eq_true_2 by done. simpl.
  split; [done|]. intros H. by destruct H.
Qed.

(** Each setter of the String builder configures its constraint, and a
    fresh builder has none. *)
Lemma StringTypeBuilder_setters (name pattern : string) (n : Z) :
  unconstrained (StringTypeBuilder.st (StringTypeBuilder.New name))
  ∧ (pattern ≠ "" →
     ¬ unconstrained
         (StringTypeBuilder.st
            (StringTypeBuilder.Pattern (StringTypeBuilder.New name) pattern)))
  ∧ ¬ unconstrained
        (StringTypeBuilder.st
           (StringTypeBuilder.MaxSize (StringTypeBuilder.New name) n))
  ∧ ¬ unconstrained
        (StringTypeBuilder.st
           (StringTypeBuilder.MinSize (StringTypeBuilder.New name) n)).
Proof.
  unfold unconstrained. simpl. split_and!; [done..| | |].
  - by intros Hp [? _].
  - by intros (_ & ? & _).
  - by intros (_ & _ & ? & _).
Qed.

(** * The resource builder *)

Lemma exception_apply (rb : ResourceBuilder.t) (c : ResourceBuilder.call)
    (sym : string) :
  ResourceBuilder.exception
    (ResourceBuilder.proto (ResourceBuilder.apply rb c)) sym
  = match c with
    | ResourceBuilder.CallException sym' typename comment =>
        if decide (sym' = sym) then Some (mkExceptionDef typename comment)
        else ResourceBuilder.exception (ResourceBuilder.proto rb) sym
    | _ => ResourceBuilder.exception (ResourceBuilder.proto rb) sym
    end.
Proof.
  destruct c; try done. unfold ResourceBuilder.exception. simpl.
  case_decide as Hs.
  - subst. by rewrite lookup_insert_eq.
  - rewrite lookup_insert_ne by done.
    by destruct (Resource_Exceptions (ResourceBuilder.proto rb)).
Qed.

Lemma chain_app (rb : ResourceBuilder.t) (cs1 cs2 : list ResourceBuilder.call) :
  ResourceBuilder.chain rb (cs1 ++ cs2)
  = ResourceBuilder.chain (ResourceBuilder.chain rb cs1) cs2.
Proof. unfold ResourceBuilder.chain. apply foldl_app. Qed.

(** Calls that register nothing under [sym] leave its entry alone. *)
Lemma chain_keeps (sym : string) (cs : list ResourceBuilder.call) :
  ∀ rb : ResourceBuilder.t,
    Forall (λ c, ResourceBuilder.registers sym c = false) cs →
    ResourceBuilder.exception
      (ResourceBuilder.proto (ResourceBuilder.chain rb cs)) sym
    = ResourceBuilder.exception (ResourceBuilder.proto rb) sym.
Proof.
  induction cs as [|c cs IH]; intros rb Hcs; [done|].
  apply Forall_cons in Hcs as [Hc Hcs].
  change (ResourceBuilder.chain rb (c :: cs))
    with (ResourceBuilder.chain (ResourceBuilder.apply rb c) cs).
  rewrite (IH _ Hcs), exception_apply. destruct c; try done.
  simpl in Hc. apply String.eqb_neq in Hc. by rewrite decide_False.
Qed.

(** The entry under [sym'] after a chain depends only on the entry under
    [sym'] before it. *)
Lemma chain_entry_ext (sym' : string) (cs : list ResourceBuilder.call) :
  ∀ rb rb' : ResourceBuilder.t,
    ResourceBuilder.exception (ResourceBuilder.proto rb) sym'
    = ResourceBuilder.exception (ResourceBuilder.proto rb') sym' →
    ResourceBuilder.exception
      (ResourceBuilder.proto (ResourceBuilder.chain rb cs)) sym'
    = ResourceBuilder.exception
        (ResourceBuilder.proto (ResourceBuilder.chain rb' cs)) sym'.
Proof.
  induction cs as [|c cs IH]; intros rb rb' H; [done|].
  change (ResourceBuilder.chain rb (c :: cs))
    with (ResourceBuilder.chain (ResourceBuilder.apply rb c) cs).
  change (ResourceBuilder.chain rb' (c :: cs))
    with (ResourceBuilder.chain (ResourceBuilder.apply rb' c) cs).
  apply IH. rewrite !exception_apply. destruct c; try done.
  by case_decide.
Qed.

(** Dropping the registrations under [sym] changes no other entry. *)
Lemma chain_other_symbols (sym sym' : string) (cs : list ResourceBuilder.call) :
  sym' ≠ sym →
  ∀ rb : ResourceBuilder.t,
    ResourceBuilder.exception
      (ResourceBuilder.proto (ResourceBuilder.chain rb cs)) sym'
    = ResourceBuilder.exception
        (ResourceBuilder.proto
           (ResourceBuilder.chain rb
              (filter (λ c, ResourceBuilder.registers sym c = false) cs)))
        sym'.
Proof.
  intros Hne. induction cs as [|c cs IH]; intros rb; [done|].
  change (ResourceBuilder.chain rb (c :: cs))
    with (ResourceBuilder.chain (ResourceBuilder.apply rb c) cs).
  rewrite filter_cons. case_decide as Hc.
  - change (ResourceBuilder.chain rb (c :: ?l))
      with (ResourceBuilder.chain (ResourceBuilder.apply rb c) l).
    apply IH.
  - rewrite IH. apply chain_entry_ext. rewrite exception_apply.
    destruct c; try done. simpl in Hc. apply not_false_is_true in Hc.
    apply String.eqb_eq in Hc as ->. by rewrite decide_False.
Qed.

(** C9: when Exception is called twice or more with the same outcome symbol,
    the finished Resource maps that symbol to the exception of the last such
    call, the earlier ones being replaced, and the entries of all other
    symbols are what they are without these calls. *)
Theorem Exception_last_registration_wins (rb : ResourceBuilder.t)
    (sym ty1 c1 ty2 c2 : string) (pre mid post : list ResourceBuilder.call) :
  Forall (λ c, ResourceBuilder.registers sym c = false) post →
  let calls :=
    pre ++ ResourceBuilder.CallException sym ty1 c1
        :: mid ++ ResourceBuilder.CallException sym ty2 c2 :: post in
  let r := ResourceBuilder.Build (ResourceBuilder.chain rb calls) in
  ResourceBuilder.exception r sym = Some (mkExceptionDef ty2 c2)
  ∧ ∀ sym', sym' ≠ sym →
      ResourceBuilder.exception r sym'
      = ResourceBuilder.exception
          (ResourceBuilder.Build
             (ResourceBuilder.chain rb
                (filter (λ c, ResourceBuilder.registers sym c = false) calls)))
          sym'.
Proof.
  intros Hpost calls r. subst r. unfold ResourceBuilder.Build. split.
  - unfold calls.
    rewrite (app_comm_cons mid), app_assoc, chain_app.
    change (ResourceBuilder.chain ?b (ResourceBuilder.CallException sym ty2 c2 :: post))
      with (ResourceBuilder.chain
              (ResourceBuilder.apply b (ResourceBuilder.CallException sym ty2 c2))
              post).
    rewrite (chain_keeps _ _ _ Hpost), exception_apply.
    by rewrite decide_True.
  - intros sym' Hne. by apply chain_other_symbols.
Qed.

(** Example 5 of the specification, with a later call that registers
    nothing. *)
Lemma Exception_last_registration_wins_example :
  let rb := ResourceBuilder.New "Item" "GET" "/item/{id}" in
  let calls :=
    [ResourceBuilder.CallException "NOT_FOUND" "ResourceError" "first";
     ResourceBuilder.CallException "FORBIDDEN" "ResourceError" "other symbol";
     ResourceBuilder.CallException "NOT_FOUND" "ItemError" "second";
     ResourceBuilder.CallName "getItem"] in
  ResourceBuilder.exception
    (ResourceBuilder.Build (ResourceBuilder.chain rb calls)) "NOT_FOUND"
  = Some (mkExceptionDef "ItemError" "second").
Proof.
  intros rb calls.
  refine (proj1 (Exception_last_registration_wins rb
                  "NOT_FOUND" "ResourceError" "first" "ItemError" "second"
                  []
                  [ResourceBuilder.CallException "FORBIDDEN" "ResourceError"
                     "other symbol"]
                  [ResourceBuilder.CallName "getItem"]
                  _)).
  by repeat constructor.
Defined.

(** * Example schemas *)

(** A struct derived from the declared struct [Shape], with a field of the
    declared type [Point]. *)
Definition Shape : Type_ :=
  StructTypeBuilder.Build (StructTypeBuilder.New "Struct" "Shape").

Definition Circle : Type_ :=
  StructTypeBuilder.Build
    (StructTypeBuilder.Field (StructTypeBuilder.New "Shape" "Circle")
       "center" "Point" false VNil "").

(** A union whose variant is the declared type [Point]. *)
Definition Geometry : Type_ :=
  UnionTypeBuilder.Build
    (UnionTypeBuilder.Variant (UnionTypeBuilder.New "Union" "Geometry") "Point").

(** A struct with an inline map field whose items are the declared type
    [Point]. *)
Definition Atlas : Type_ :=
  StructTypeBuilder.Build
    (StructTypeBuilder.MapField (StructTypeBuilder.New "Struct" "Atlas")
       "places" "String" "Point" false "").

(** An alias of the Base Type Array: it holds no array definition. *)
Definition Bag : Type_ :=
  AliasTypeBuilder.Build (AliasTypeBuilder.New "Array" "Bag").

(** Two declarations of the name Id, the second an alias of [Tag]. *)
Definition Id_first : Type_ :=
  AliasTypeBuilder.Build (AliasTypeBuilder.New "String" "Id").

Definition Id_second : Type_ :=
  AliasTypeBuilder.Build (AliasTypeBuilder.New "Tag" "Id").

Definition Tag : Type_ :=
  AliasTypeBuilder.Build (AliasTypeBuilder.New "String" "Tag").

(** A union with a variant that is declared nowhere. *)
Definition Payload : Type_ :=
  UnionTypeBuilder.Build
    (UnionTypeBuilder.Variant (UnionTypeBuilder.New "Union" "Payload") "Missing").

(** Example 4 of the specification. *)
Definition Self : Type_ :=
  StructTypeBuilder.Build
    (StructTypeBuilder.Field (StructTypeBuilder.New "Struct" "Self")
       "next" "Missing" false VNil "").

(** Two aliases of each other. *)
Definition Ping : Type_ :=
  AliasTypeBuilder.Build (AliasTypeBuilder.New "Pong" "Ping").

Definition Pong : Type_ :=
  AliasTypeBuilder.Build (AliasTypeBuilder.New "Ping" "Pong").

(** A declared Type named like the Base Type UUID. *)
Definition MyUUID : Type_ :=
  StringTypeBuilder.Build (StringTypeBuilder.New "UUID").

(** A declared Type with the empty name, and an alias of it. *)
Definition Nameless : Type_ :=
  AliasTypeBuilder.Build (AliasTypeBuilder.New "String" "").

Definition OfNameless : Type_ :=
  AliasTypeBuilder.Build (AliasTypeBuilder.New "" "OfNameless").

(** Example 3 of the specification (the map named Lookup). *)
Definition LookupMap : Type_ :=
  MapTypeBuilder.Build
    (MapTypeBuilder.Items
       (MapTypeBuilder.Keys (MapTypeBuilder.New "Map" "Lookup") "String")
       "Point").

(** Example 1 of the specification: Line is declared before Point. *)
Definition line_point : SchemaBuilder := declare "geometry" [Line; Point].

Definition line_point_built : Schema :=
  mkSchema "geometry" "" None "" "" [Some Point; Some Line] [].

(** Point, Line and the map of Example 3, declared in dependency order. *)
Definition in_order : SchemaBuilder :=
  declare "geometry" [Point; Line; LookupMap].

(** [sb] with its declared Types replaced. *)
Definition with_Types (sb : SchemaBuilder) (types : list (option Type_))
    : SchemaBuilder :=
  let p := proto sb in
  mkSchemaBuilder
    (mkSchema (Schema_Name p) (Schema_Namespace p) (Schema_Version p)
       (Schema_Base p) (Schema_Comment p) types (Schema_Resources p))
    (err sb).

(** ** The properties as the specification words them

    The references of a Type that the specification lists: its supertype,
    its array item type, its map key and item types, and its struct fields'
    types. *)
Definition spec_references (t : Type_) : list string :=
  match info (Some t) with Some (_, super) => [super] | None => [] end
  ++ match T_ArrayTypeDef t with Some d => [Array_Items d] | None => [] end
  ++ match T_MapTypeDef t with
     | Some d => [Map_Keys d; Map_Items d]
     | None => []
     end
  ++ match T_StructTypeDef t with
     | Some d => map Field_Type (Struct_Fields d)
     | None => []
     end.

(** Every reference reachable from a Type: those above, the item and key
    types of its inline array and map fields, and its union variants. *)
Definition spec_reachable_references (t : Type_) : list string :=
  spec_references t
  ++ match T_StructTypeDef t with
     | Some d =>
         map Field_Items (Struct_Fields d) ++ map Field_Keys (Struct_Fields d)
     | None => []
     end
  ++ match T_UnionTypeDef t with Some d => Union_Variants d | None => [] end.

(** Every declared, non-Base type that a Type of [out] references by
    [refs] comes strictly before it. *)
Definition ordered_by (refs : Type_ → list string)
    (out : list (option Type_)) : Prop :=
  ∀ i t r,
    out !! i = Some (Some t) → r ∈ refs t → isBaseType r = false →
    r ∈ declared_names out → before out r i.

Ltac by_compute := vm_compute; reflexivity.
Ltac decide_by_compute := apply (bool_decide_unpack _); vm_compute; exact I.
Ltac elem_by_compute := vm_compute; by repeat constructor.

Lemma baseTypeNames_base n : n ∈ baseTypeNames → isBaseType n = true.
Proof.
  intros Hn. unfold baseTypeNames in Hn.
  repeat (apply elem_of_cons in Hn as [->|Hn]; [reflexivity|]).
  by apply elem_of_nil in Hn.
Qed.

Lemma isBaseType_names n : isBaseType n = true ↔ n ∈ baseTypeNames.
Proof.
  split; [|apply baseTypeNames_base].
  unfold isBaseType, baseTypeNames.
  repeat match goal with
         | |- context [in_cases n ?l] =>
             let H := fresh in
             destruct (in_cases n l) eqn:H;
               [apply in_cases_true in H; intros _; set_solver|]
         end.
  intros; discriminate.
Qed.

(** Example 1 of the specification: after [Build], Point precedes Line. *)
Lemma Build_line_point :
  Build baseTypeNames 3 line_point = Returned line_point_built.
Proof. by_compute. Qed.

(** The entries of the table count. With a table that also holds the
    empty name, a declared Type with the empty name is skipped like a Type
    named after a Base Type, its alias is emitted without it, and building
    the output again dereferences nil; with the Base Type names alone both
    are emitted, in dependency order. *)
Lemma Build_skips_table_entry :
  keeps ("" :: baseTypeNames) (Some Nameless) = false
  ∧ built_types
      (Build ("" :: baseTypeNames) 3 (declare "ids" [OfNameless; Nameless]))
    = Returned [Some OfNameless]
  ∧ built_types (Build ("" :: baseTypeNames) 3 (declare "ids" [OfNameless]))
    = Panic
  ∧ built_types (Build baseTypeNames 3 (declare "ids" [OfNameless; Nameless]))
    = Returned [Some Nameless; Some OfNameless].
Proof. split_and!; by_compute. Qed.

(** * The claims *)

(** C1, which the code breaks: every declared type that a Type
    references through its supertype, array item, map key or item, or a
    struct field comes strictly before it. For Circle, a struct derived
    from the declared struct Shape with a field of the declared type Point,
    [Build] emits Point after Circle: only a struct whose supertype is
    literally Struct has its field types resolved first. *)
Theorem Build_derived_struct_field_after :
  built_types
    (Build baseTypeNames 3 (declare "shapes" [Circle; Shape; Point]))
  = Returned [Some Shape; Some Circle; Some Point]
  ∧ "Point" ∈ spec_references Circle
  ∧ ¬ ordered_by spec_references [Some Shape; Some Circle; Some Point].
Proof.
  split_and!; [by_compute|elem_by_compute|]. intros H.
  destruct (H 1 Circle "Point") as (j & t' & Hj & Hlk & Hn);
    [done|elem_by_compute|done|elem_by_compute|].
  destruct j as [|j]; [|lia]. injection Hlk as <-. vm_compute in Hn.
  discriminate.
Qed.

(** C2, amended: for any table [namesBaseType], the output of [Build] over
    uniquely named Types is a permutation of the declared Types that
    [resolve] does not skip, those whose names are neither Base Type names
    nor entries of the table; when no declared Type is skipped, of all
    declared Types. *)
Theorem Build_permutation namesBaseType fuel sb s :
  NoDup (declared_names (Schema_Types (proto sb))) →
  Build namesBaseType fuel sb = Returned s →
  Schema_Types s
  ≡ₚ filter (λ t, keeps namesBaseType t = true) (Schema_Types (proto sb))
  ∧ (Forall (λ t, keeps namesBaseType t = true) (Schema_Types (proto sb)) →
     Schema_Types s ≡ₚ Schema_Types (proto sb)).
Proof.
  intros Hnd HB.
  pose proof (Build_permutation_kept _ _ _ _ Hnd HB) as Hperm.
  split; [done|]. intros Hall. rewrite Hperm.
  clear -Hall. induction Hall as [|t types Ht Hall IH]; [done|].
  rewrite filter_cons, decide_True by done. by rewrite IH.
Qed.

Lemma Build_permutation_example :
  Schema_Types line_point_built
  ≡ₚ filter (λ t, keeps baseTypeNames t = true)
       (Schema_Types (proto line_point))
  ∧ (Forall (λ t, keeps baseTypeNames t = true)
       (Schema_Types (proto line_point)) →
     Schema_Types line_point_built ≡ₚ Schema_Types (proto line_point)).
Proof.
  apply (Build_permutation baseTypeNames 3 line_point line_point_built).
  - decide_by_compute.
  - by_compute.
Defined.

(** C2 as worded fails: a uniquely named Type called UUID is dropped. *)
Lemma Build_drops_base_named_type :
  NoDup (declared_names (Schema_Types (proto (declare "ids" [MyUUID]))))
  ∧ built_types (Build baseTypeNames 3 (declare "ids" [MyUUID]))
    = Returned []
  ∧ ¬ ([] ≡ₚ Schema_Types (proto (declare "ids" [MyUUID]))).
Proof.
  split_and!; [decide_by_compute|by_compute|].
  intros H. by apply Permutation_nil_l in H.
Qed.

(** C3, amended: for any table [namesBaseType], over uniquely named Types
    the output of [Build] is a topological order of the references the
    resolver follows: the supertype of a Type whose supertype is none of the
    dependency-free Base Types, Array, Map or Struct; the item type under
    supertype Array; the item and key types under supertype Map; the field
    types under supertype Struct. Each such reference that is neither a
    Base Type name nor an entry of the table comes strictly before the
    referring Type, and so does every declared Type reached by a chain of
    such references between Types that [resolve] does not skip. *)
Theorem Build_topological_order namesBaseType fuel sb s :
  NoDup (declared_names (Schema_Types (proto sb))) →
  Build namesBaseType fuel sb = Returned s →
  (∀ i t r,
     Schema_Types s !! i = Some (Some t) →
     r ∈ references_followed t → isBaseType r = false →
     r ∉ namesBaseType →
     before (Schema_Types s) r i)
  ∧ (∀ a b, tc (follows namesBaseType (Schema_Types (proto sb))) a b →
            precedes (Schema_Types s) b a).
Proof.
  intros Hnd HB. split.
  - by eapply Build_followed_before.
  - by eapply Build_chain_precedes.
Qed.

Lemma Build_topological_order_example :
  before (Schema_Types line_point_built) "Point" 1
  ∧ precedes (Schema_Types line_point_built) Point Line.
Proof.
  destruct (Build_topological_order baseTypeNames 3 line_point
              line_point_built) as [Hone Hchain].
  - decide_by_compute.
  - by_compute.
  - split.
    + apply (Hone 1 Line "Point");
        [done|elem_by_compute|done|decide_by_compute].
    + apply Hchain, tc_once.
      split_and!; [elem_by_compute|by_compute|elem_by_compute|by_compute|].
      exists "Point". split; [done|elem_by_compute].
Defined.

(** C3 as worded fails: the variant Point of the union Geometry is emitted
    after the union, and the item type Point of the inline map field of
    Atlas after Atlas. *)
Lemma Build_union_variant_after :
  built_types (Build baseTypeNames 3 (declare "shapes" [Geometry; Point]))
  = Returned [Some Geometry; Some Point]
  ∧ "Point" ∈ spec_reachable_references Geometry
  ∧ ¬ ordered_by spec_reachable_references [Some Geometry; Some Point]
  ∧ built_types (Build baseTypeNames 3 (declare "maps" [Atlas; Point]))
    = Returned [Some Atlas; Some Point]
  ∧ "Point" ∈ spec_reachable_references Atlas
  ∧ ¬ ordered_by spec_reachable_references [Some Atlas; Some Point].
Proof.
  split_and!; [by_compute|elem_by_compute| |by_compute|elem_by_compute|].
  - intros H.
    destruct (H 0 Geometry "Point") as (j & t' & Hj & _);
      [done|elem_by_compute|done|elem_by_compute|].
    lia.
  - intros H.
    destruct (H 0 Atlas "Point") as (j & t' & Hj & _);
      [done|elem_by_compute|done|elem_by_compute|].
    lia.
Qed.

(** Unique names are needed for the order: of two declarations of Id the
    map keeps the second, and [Build] emits it where the first one stood,
    before its supertype Tag. *)
Lemma Build_duplicate_names_misordered :
  built_types
    (Build baseTypeNames 3 (declare "ids" [Id_first; Id_second; Tag]))
  = Returned [Some Id_second; Some Tag]
  ∧ references_followed Id_second = ["Tag"].
Proof. split; by_compute. Qed.

(** C4, amended: for any table [namesBaseType], over uniquely named
    Types, when a declared Type that [resolve] does not skip (its name is
    neither a Base Type name nor an entry of the table) has a reference
    that the resolver follows, naming neither a Base Type nor a declared
    Type, [Build] produces no Schema, whatever the recursion bound. *)
Theorem Build_dangling_no_schema namesBaseType fuel sb t r :
  NoDup (declared_names (Schema_Types (proto sb))) →
  Some t ∈ Schema_Types (proto sb) → keeps namesBaseType (Some t) = true →
  r ∈ references_followed t → isBaseType r = false →
  r ∉ declared_names (Schema_Types (proto sb)) →
  no_schema (Build namesBaseType fuel sb).
Proof.
  intros Hnd Ht Hk Hr Hrb Hdangling s HB.
  pose proof (Build_permutation_kept _ _ _ _ Hnd HB) as Hperm.
  assert (Some t ∈ Schema_Types s) as Hin.
  { rewrite Hperm. by apply list_elem_of_filter. }
  apply Hdangling.
  by apply (Build_followed_declared _ _ _ _ Hnd HB t r).
Qed.

Lemma Build_dangling_no_schema_example :
  no_schema (Build baseTypeNames 3 (declare "selfish" [Self])).
Proof.
  apply (Build_dangling_no_schema baseTypeNames 3
           (declare "selfish" [Self]) Self "Missing").
  - decide_by_compute.
  - elem_by_compute.
  - by_compute.
  - elem_by_compute.
  - by_compute.
  - decide_by_compute.
Defined.

(** C4 as worded fails: the union Payload has the undeclared variant
    Missing and [Build] returns a Schema that holds it; and for Example 4
    of the specification the outcome is a bare nil dereference, which names
    neither Self nor Missing. *)
Lemma Build_ignores_dangling_variant :
  built_types (Build baseTypeNames 3 (declare "messages" [Payload]))
  = Returned [Some Payload]
  ∧ "Missing" ∈ spec_reachable_references Payload
  ∧ isBaseType "Missing" = false
  ∧ ("Missing"
     ∉ declared_names (Schema_Types (proto (declare "messages" [Payload]))))
  ∧ (∀ fuel, Build baseTypeNames (S fuel) (declare "selfish" [Self]) = Panic).
Proof.
  split_and!; [by_compute|elem_by_compute|by_compute|decide_by_compute|].
  intros fuel. by_compute.
Qed.

(** C5, amended: for any table [namesBaseType], over uniquely named
    Types, when the declared Types that [resolve] does not skip contain a
    cycle of references that the resolver follows, [Build] produces no
    Schema, whatever the recursion bound; no outcome of [Build] is a Cycle
    error. When moreover every declared Type holds the definition its
    supertype selects and no followed reference dangles, [Build] exhausts
    the recursion bound, whatever it is. *)
Theorem Build_cycle_no_schema namesBaseType fuel sb a :
  NoDup (declared_names (Schema_Types (proto sb))) →
  tc (follows namesBaseType (Schema_Types (proto sb))) a a →
  no_schema (Build namesBaseType fuel sb)
  ∧ (Forall (λ t, defs_present t = true) (Schema_Types (proto sb)) →
     (∀ t r, Some t ∈ Schema_Types (proto sb) → r ∈ references_followed t →
             isBaseType r = false →
             r ∈ declared_names (Schema_Types (proto sb))) →
     Build namesBaseType fuel sb = OutOfFuel).
Proof.
  intros Hnd Hcycle.
  assert (Hno : no_schema (Build namesBaseType fuel sb)).
  { intros s HB.
    destruct (Build_chain_precedes _ _ _ _ Hnd HB a a Hcycle)
      as (i & j & Hji & Hj & Hi).
    pose proof (NoDup_lookup _ _ _ _ (Build_NoDup _ _ _ _ Hnd HB) Hj Hi).
    lia. }
  split; [done|]. intros Hdefs Hclosed.
  pose proof (Build_no_panic namesBaseType fuel sb Hnd Hdefs Hclosed) as Hnp.
  destruct (Build namesBaseType fuel sb) as [s| |] eqn:HB;
    [by destruct (Hno s)|done|done].
Qed.

Lemma Build_cycle_no_schema_example :
  no_schema (Build baseTypeNames 5 (declare "game" [Ping; Pong]))
  ∧ Build baseTypeNames 5 (declare "game" [Ping; Pong]) = OutOfFuel.
Proof.
  destruct (Build_cycle_no_schema baseTypeNames 5
              (declare "game" [Ping; Pong]) Ping) as [Hno Hout].
  - decide_by_compute.
  - apply tc_l with Pong; [|apply tc_once].
    + split_and!; [elem_by_compute|by_compute|elem_by_compute|by_compute|].
      exists "Pong". split; [done|elem_by_compute].
    + split_and!; [elem_by_compute|by_compute|elem_by_compute|by_compute|].
      exists "Ping". split; [done|elem_by_compute].
  - split; [exact Hno|]. apply Hout.
    + by repeat constructor.
    + intros t r Ht Hr _.
      change (Schema_Types (proto (declare "game" [Ping; Pong])))
        with [Some Ping; Some Pong] in *.
      apply elem_of_cons in Ht as [[= ->]|Ht];
        [|apply elem_of_cons in Ht as [[= ->]|Ht];
          [|by apply elem_of_nil in Ht]];
        vm_compute in Hr;
        apply elem_of_cons in Hr as [->|Hr];
        try (by apply elem_of_nil in Hr); elem_by_compute.
Defined.

(** C5 as worded fails: on two aliases of each other [Build] exhausts every
    recursion bound; it neither terminates nor reports a Cycle error. *)
Lemma Build_two_cycle_diverges :
  diverges (λ fuel, Build baseTypeNames fuel (declare "game" [Ping; Pong])).
Proof.
  intros fuel. unfold Build.
  set (all := <["Pong" := Pong]> (<["Ping" := Ping]> (∅ : gmap string Type_))).
  assert (Hc : collect (Schema_Types (proto (declare "game" [Ping; Pong]))) ∅
               = Returned all) by by_compute.
  rewrite Hc, bind_Returned_l.
  change (Schema_Types (proto (declare "game" [Ping; Pong])))
    with [Some Ping; Some Pong].
  cbn [resolveAll].
  change (TypeInfo (Some Ping)) with (Returned ("Ping", "Pong", "")).
  rewrite bind_Returned_l. cbv beta iota.
  destruct (mutual_pair_diverges all "Ping" "Pong" Ping Pong) with
    (fuel := fuel) (st := (([], seed baseTypeNames) : rstate)) as [-> _];
    [by_compute..|done].
Qed.

(** C6, amended: for any table [namesBaseType], when the declared Types
    have unique names, none of them a Base Type name or an entry of the
    table, each holds the definition its supertype selects, and every
    non-Base reference the resolver follows names a Type declared earlier,
    [Build] returns, for every recursion bound of at least two, the schema
    with its Types in the order they were appended. *)
Theorem Build_in_order_identity namesBaseType fuel sb :
  NoDup (declared_names (Schema_Types (proto sb))) →
  Forall (λ t, keeps namesBaseType t = true) (Schema_Types (proto sb)) →
  Forall (λ t, defs_present t = true) (Schema_Types (proto sb)) →
  (∀ i t r,
     Schema_Types (proto sb) !! i = Some (Some t) →
     r ∈ references_followed t → isBaseType r = false →
     before (Schema_Types (proto sb)) r i) →
  (2 ≤ fuel)%nat →
  Build namesBaseType fuel sb = Returned (proto sb).
Proof.
  intros Hnd Hkeep Hdefs Hord Hfuel.
  destruct fuel as [|[|fuel]]; [lia..|]. unfold Build.
  destruct (collect_returns (Schema_Types (proto sb)) ∅) as [all Hc].
  { eapply Forall_impl; [exact Hkeep|]. intros t Ht.
    unfold keeps in Ht. by destruct (name_of t). }
  rewrite Hc, bind_Returned_l.
  destruct (collect_spec _ _ _ Hc) as (_ & _ & _ & Huniq).
  destruct (resolveAll_in_order fuel all namesBaseType
              (Schema_Types (proto sb)) (collect_wf _ _ Hc)) with
    (pre := @nil (option Type_)) (resolved := seed namesBaseType)
    as [resolved' Hr]; try done.
  - rewrite dom_seed. set_solver.
  - by apply Huniq.
  - simpl in Hr. rewrite Hr. simpl. by destruct (proto sb).
Qed.

Lemma Build_in_order_identity_example :
  Build baseTypeNames 2 in_order = Returned (proto in_order).
Proof.
  apply (Build_in_order_identity baseTypeNames 2 in_order).
  - decide_by_compute.
  - repeat constructor; by_compute.
  - by repeat constructor.
  - intros i t r Hi Hr Hb.
    destruct i as [|[|[|i]]]; [| | |done]; injection Hi as <-;
      vm_compute in Hr;
      repeat (apply elem_of_cons in Hr as [->|Hr]; [try discriminate|]);
      try (by apply elem_of_nil in Hr);
      exists 0, Point; split_and!; (lia || done).
  - lia.
Defined.

(** A lone Type that does not reference itself is in dependency order. *)
Lemma ordered_by_singleton (t : Type_) (n : string) :
  name_of (Some t) = Some n → n ∉ spec_reachable_references t →
  ordered_by spec_reachable_references [Some t].
Proof.
  intros Hn Hself i t' r Hi Hr _ Hd.
  destruct i as [|i]; [injection Hi as <-|done].
  unfold declared_names in Hd. simpl in Hd. rewrite Hn in Hd.
  by apply list_elem_of_singleton in Hd as ->.
Qed.

(** C6 as worded fails: a schema whose only Type is named UUID is in
    dependency order, and [Build] returns no Type at all; so are the
    schemas of Example 4 (a reference to an undeclared name) and of an
    alias of Array, and on them [Build] does not return. *)
Lemma Build_in_order_drops_base_named_type :
  ordered_by spec_reachable_references
    (Schema_Types (proto (declare "ids" [MyUUID])))
  ∧ built_types (Build baseTypeNames 3 (declare "ids" [MyUUID]))
    = Returned []
  ∧ Schema_Types (proto (declare "ids" [MyUUID])) ≠ []
  ∧ ordered_by spec_reachable_references
      (Schema_Types (proto (declare "selfish" [Self])))
  ∧ Build baseTypeNames 3 (declare "selfish" [Self]) = Panic
  ∧ ordered_by spec_reachable_references
      (Schema_Types (proto (declare "bags" [Bag])))
  ∧ Build baseTypeNames 3 (declare "bags" [Bag]) = Panic.
Proof.
  split_and!; [|by_compute|done| |by_compute| |by_compute].
  - apply (ordered_by_singleton MyUUID "UUID"); [done|decide_by_compute].
  - apply (ordered_by_singleton Self "Self"); [done|decide_by_compute].
  - apply (ordered_by_singleton Bag "Bag"); [done|decide_by_compute].
Qed.

(** C7: no Type in the output of [Build] bears a Base Type name (Bool, Int8,
    Int16, Int32, Int64, Float32, Float64, String, Bytes, Timestamp, Symbol,
    UUID, Struct, Array, Map, Enum, Union, Any): every entry is a descriptor
    whose own name is none of them, whatever the supertypes and field types
    in use. *)
Theorem Build_emits_no_base_type namesBaseType fuel sb s :
  Build namesBaseType fuel sb = Returned s →
  ∀ t, t ∈ Schema_Types s →
    ∃ t' n, t = Some t' ∧ name_of (Some t') = Some n
            ∧ isBaseType n = false ∧ n ∉ baseTypeNames.
Proof.
  intros HB t Ht. pose proof (Build_emits _ _ _ _ HB) as Hall.
  rewrite Forall_forall in Hall.
  destruct (Hall t Ht) as (t' & n & -> & Hn & Hb).
  exists t', n. split_and!; [done..|].
  intros Hin%isBaseType_names. congruence.
Qed.

Lemma Build_emits_no_base_type_example :
  ∃ t' n, Some Point = Some t' ∧ name_of (Some t') = Some n
          ∧ isBaseType n = false ∧ n ∉ baseTypeNames.
Proof.
  apply (Build_emits_no_base_type baseTypeNames 3 line_point
           line_point_built).
  - by_compute.
  - elem_by_compute.
Defined.

(** C10: a declared Type whose own name is a Base Type name is left out
    silently: for every positive recursion bound, [Build] has the outcome it
    has without that Type (the same Schema, or the same failure), and a
    Schema it returns does not hold the Type. *)
Theorem Build_omits_base_named_type namesBaseType fuel sb l1 t l2 n :
  name_of (Some t) = Some n → isBaseType n = true →
  Build namesBaseType (S fuel) (with_Types sb (l1 ++ Some t :: l2))
  = Build namesBaseType (S fuel) (with_Types sb (l1 ++ l2))
  ∧ ∀ s, Build namesBaseType (S fuel) (with_Types sb (l1 ++ Some t :: l2))
         = Returned s →
         Some t ∉ Schema_Types s.
Proof.
  intros Hn Hb. split.
  - unfold Build, with_Types. cbn [proto Schema_Types Schema_Name
      Schema_Namespace Schema_Version Schema_Base Schema_Comment
      Schema_Resources].
    pose proof (collect_skip t n l2 l1 ∅ ∅ Hn Hb (λ k _, eq_refl)) as Hc.
    destruct (collect (l1 ++ Some t :: l2) ∅) as [all| |],
      (collect (l1 ++ l2) ∅) as [all'| |]; try done.
    rewrite !bind_Returned_l.
    by rewrite (resolveAll_skip fuel all all' t n l2 l1 _ Hn Hb Hc).
  - intros s HB Hin. pose proof (Build_emits _ _ _ _ HB) as Hall.
    rewrite Forall_forall in Hall.
    destruct (Hall _ Hin) as (t' & n' & [= <-] & Hn' & Hb'). congruence.
Qed.

Lemma Build_omits_base_named_type_example :
  Build baseTypeNames 3
    (with_Types line_point [Some Line; Some MyUUID; Some Point])
  = Build baseTypeNames 3 (with_Types line_point [Some Line; Some Point])
  ∧ ∀ s, Build baseTypeNames 3
           (with_Types line_point [Some Line; Some MyUUID; Some Point])
         = Returned s →
         Some MyUUID ∉ Schema_Types s.
Proof.
  apply (Build_omits_base_named_type baseTypeNames 2 line_point
           [Some Line] MyUUID [Some Point] "UUID"); by_compute.
Defined.

(** * Further properties of the resolver *)

(** ** [resolve] only appends *)

(** State [st'] extends [st]: what was emitted stays in place, what was
    resolved stays resolved. *)
Definition grows (st st' : rstate) : Prop :=
  st.1 `prefix_of` st'.1 ∧ dom st.2 ⊆ dom st'.2.

Lemma grows_refl (st : rstate) : grows st st.
Proof. by split. Qed.

Lemma grows_trans (st1 st2 st3 : rstate) :
  grows st1 st2 → grows st2 st3 → grows st1 st3.
Proof. intros [? ?] [? ?]. split; by etrans. Qed.

Section Appends.
Variable all : gmap string Type_.

Definition appends (rec : rstate → string → string → outcome rstate) : Prop :=
  ∀ st name super st',
    rec st name super = Returned st' →
    grows st st' ∧ (isBaseType name = true ∨ is_Some (st'.2 !! name)).

Lemma resolveRef_appends rec (st st' : rstate) ref :
  appends rec → resolveRef rec all st ref = Returned st' → grows st st'.
Proof.
  intros Hrec. unfold resolveRef. destruct (isBaseType ref); simpl.
  - intros [= <-]. apply grows_refl.
  - intros H. inv_bind H. destruct a as [[n s] c]. by apply Hrec in H as [? _].
Qed.

Lemma resolveFields_appends rec fields : ∀ (st st' : rstate),
  appends rec → resolveFields rec all st fields = Returned st' → grows st st'.
Proof.
  induction fields as [|f fields IH]; intros st st' Hrec; simpl.
  - intros [= <-]. apply grows_refl.
  - intros H. inv_bind H. eapply grows_trans; [by eapply resolveRef_appends|].
    by eapply IH.
Qed.

Lemma resolve_appends_rec fuel : appends (resolve fuel all).
Proof.
  induction fuel as [|fuel IH]; intros st name super st'; [discriminate|].
  simpl.
  destruct (bool_decide (is_Some (st.2 !! name))) eqn:Hres; simpl.
  { intros [= <-]. split; [apply grows_refl|right].
    by apply bool_decide_eq_true in Hres. }
  destruct (isBaseType name) eqn:Hb; simpl.
  { intros [= <-]. split; [apply grows_refl|by left]. }
  intros H. inv_bind H. injection H as <-.
  assert (Hdeps : grows st a).
  { destruct (in_cases super no_dependencies);
      [injection Ha as <-; apply grows_refl|].
    destruct (String.eqb super "Array").
    { inv_bind Ha. inv_bind Ha. by eapply resolveRef_appends. }
    destruct (String.eqb super "Map").
    { inv_bind Ha. inv_bind Ha. inv_bind Ha.
      eapply grows_trans; by eapply resolveRef_appends. }
    destruct (String.eqb super "Struct").
    { inv_bind Ha. inv_bind Ha. by eapply resolveFields_appends. }
    by eapply resolveRef_appends. }
  split; [|right; simpl; by rewrite lookup_insert_eq].
  eapply grows_trans; [exact Hdeps|]. split; simpl.
  - by apply prefix_app_r.
  - rewrite dom_insert_L. set_solver.
Qed.
End Appends.

(** X1: a returning call of [resolve] only appends. The entries emitted
    before the call are a prefix of those after it, every name resolved
    before is resolved after, and the name it was called on is a Base Type
    name or is resolved afterwards. *)
Theorem resolve_appends fuel all (st st' : rstate) name super :
  resolve fuel all st name super = Returned st' →
  st.1 `prefix_of` st'.1
  ∧ dom st.2 ⊆ dom st'.2
  ∧ (isBaseType name = true ∨ is_Some (st'.2 !! name)).
Proof.
  intros H. destruct (resolve_appends_rec all fuel _ _ _ _ H) as [[? ?] ?].
  done.
Qed.

Lemma resolve_appends_example :
  [Some Point] `prefix_of` [Some Point; Some Line]
  ∧ dom ({["Point" := true]} : gmap string bool)
    ⊆ dom (<["Line" := true]> ({["Point" := true]} : gmap string bool))
  ∧ (isBaseType "Line" = true
     ∨ is_Some ((<["Line" := true]> ({["Point" := true]} : gmap string bool))
                !! "Line")).
Proof.
  assert (Hrun : resolve 2 (<["Line" := Line]> (<["Point" := Point]> ∅))
                   ([Some Point], {["Point" := true]}) "Line" "Struct"
                 = Returned ([Some Point; Some Line],
                             <["Line" := true]> {["Point" := true]}))
    by by_compute.
  exact (resolve_appends _ _ _ _ _ _ Hrun).
Defined.

(** ** Supertypes without dependencies *)

Lemma resolve_leaf fuel all (st : rstate) name super :
  isBaseType super = true →
  super ≠ "Array" → super ≠ "Map" → super ≠ "Struct" →
  st.2 !! name = None → isBaseType name = false →
  resolve (S fuel) all st name super
  = Returned (st.1 ++ [all !! name], <[name := true]> (st.2)).
Proof.
  intros Hsuper Ha Hm Hs Hres Hb. simpl.
  rewrite Hres, bool_decide_eq_false_2 by (by intros [? ?]).
  rewrite Hb. simpl.
  destruct (in_cases super no_dependencies); [done|].
  apply String.eqb_neq in Ha, Hm, Hs. rewrite Ha, Hm, Hs.
  unfold resolveRef. by rewrite Hsuper.
Qed.

(** X2: a Type whose supertype is a Base Type other than Array, Map and
    Struct has no dependencies. Called on an unresolved name that is not a
    Base Type name, [resolve] marks it and appends what the map holds under
    it, nil when the map holds nothing, whatever fields, items or variants
    the descriptor has. This covers Symbol, Enum, Union and Any, which the
    first case of the switch does not list. *)
Theorem resolve_base_supertype fuel all (st : rstate) name super :
  isBaseType super = true →
  super ≠ "Array" → super ≠ "Map" → super ≠ "Struct" →
  st.2 !! name = None → isBaseType name = false →
  resolve (S fuel) all st name super
  = Returned (st.1 ++ [all !! name], <[name := true]> (st.2)).
Proof.
  intros Hsuper Ha Hm Hs Hres Hb. rewrite resolve_unfold.
  unfold resolve_step.
  rewrite Hres, bool_decide_eq_false_2 by (by intros [? ?]).
  rewrite Hb. cbn [orb]. cbv zeta.
  assert (Hdefault : resolveRef (resolve fuel all) all st super = Returned st)
    by (unfold resolveRef; by rewrite Hsuper).
  destruct (in_cases super no_dependencies); [done|].
  apply String.eqb_neq in Ha, Hm, Hs. by rewrite Ha, Hm, Hs, Hdefault.
Qed.

Lemma resolve_base_supertype_example :
  resolve 1 ∅ ([], ∅) "Color" "Enum"
  = Returned ([None], <["Color" := true]> ∅).
Proof.
  refine (resolve_base_supertype 0 ∅ (([], ∅) : rstate) "Color" "Enum"
            _ _ _ _ _ _); done.
Defined.

(** ** Descriptors that do not fit their supertype *)

(** X3: for supertype Array, Map or Struct, [resolve] reads the array, map
    or struct definition of the descriptor; on a descriptor without that
    definition it panics (nil dereference), whatever the recursion bound.
    Every descriptor of the alias builder is of this kind. *)
Theorem resolve_missing_definition fuel all (st : rstate) name t :
  all !! name = Some t → st.2 !! name = None → isBaseType name = false →
  (T_ArrayTypeDef t = None →
   resolve (S fuel) all st name "Array" = Panic)
  ∧ (T_MapTypeDef t = None →
     resolve (S fuel) all st name "Map" = Panic)
  ∧ (T_StructTypeDef t = None →
     resolve (S fuel) all st name "Struct" = Panic)
  ∧ ∀ tb, t = AliasTypeBuilder.Build tb →
          T_ArrayTypeDef t = None ∧ T_MapTypeDef t = None
          ∧ T_StructTypeDef t = None.
Proof.
  intros Ht Hres Hb. split_and!.
  - intros Hd. simpl.
    rewrite Hres, bool_decide_eq_false_2 by (by intros [? ?]).
    rewrite Hb, Ht. simpl. by rewrite Hd.
  - intros Hd. simpl.
    rewrite Hres, bool_decide_eq_false_2 by (by intros [? ?]).
    rewrite Hb, Ht. simpl. by rewrite Hd.
  - intros Hd. simpl.
    rewrite Hres, bool_decide_eq_false_2 by (by intros [? ?]).
    rewrite Hb, Ht. simpl. by rewrite Hd.
  - by intros tb ->.
Qed.

Lemma resolve_missing_definition_example :
  resolve 1 (<["Bag" := Bag]> ∅) ([], ∅) "Bag" "Array" = Panic.
Proof.
  destruct (resolve_missing_definition 0 (<["Bag" := Bag]> ∅)
              (([], ∅) : rstate) "Bag" Bag) as (Harray & _);
    [by_compute|done|done|].
  by apply Harray.
Defined.

(** ** [find] *)

(** [SchemaBuilder.find]: the first descriptor of [ordered] named [name],
    nil when there is none. *)
Fixpoint find (ordered : list (option Type_)) (name : string)
    : outcome (option Type_) :=
  match ordered with
  | [] => mret None
  | t :: ordered =>
      '(n, _, _) ← TypeInfo t;
      if String.eqb name n then mret t else find ordered name
  end.

(** An entry with a name other than [name]. *)
Definition named_otherwise (name : string) (t : option Type_) : Prop :=
  ∃ n, name_of t = Some n ∧ n ≠ name.

Lemma find_cons t ordered name n :
  name_of t = Some n →
  find (t :: ordered) name
  = if String.eqb name n then Returned t else find ordered name.
Proof.
  intros [s [c Hi]%info_Some]%name_of_Some. simpl. by rewrite Hi.
Qed.

Lemma find_unnamed t ordered name r :
  name_of t = None → find (t :: ordered) name ≠ Returned r.
Proof.
  unfold name_of, info. simpl.
  destruct (TypeInfo t) as [[[n s] c]| |]; simpl; done.
Qed.

(** X4: [find] returns the first entry that bears the name, provided the
    entries before it bear other names; it returns nil exactly when every
    entry bears another name. An entry without a name (a nil entry) that is
    reached before a match makes [find] panic instead. *)
Theorem find_first ordered name :
  (∀ t, find ordered name = Returned (Some t) ↔
        ∃ l1 l2, ordered = l1 ++ Some t :: l2
                 ∧ Forall (named_otherwise name) l1
                 ∧ name_of (Some t) = Some name)
  ∧ (find ordered name = Returned None ↔
     Forall (named_otherwise name) ordered)
  ∧ (∀ l1 l2, Forall (named_otherwise name) l1 →
              find (l1 ++ None :: l2) name = Panic).
Proof.
  split_and!.
  - induction ordered as [|x ordered IH]; intros t.
    { split; [done|]. intros (l1 & l2 & H & _). by destruct l1. }
    destruct (name_of x) as [n|] eqn:Hn.
    + rewrite (find_cons _ _ _ _ Hn).
      destruct (String.eqb_spec name n) as [->|Hne].
      * split.
        -- intros [= ->]. exists [], ordered. by split_and!.
        -- intros (l1 & l2 & Heq & Hl1 & Ht).
           destruct l1 as [|y l1]; [by injection Heq as ->|].
           injection Heq as -> _. apply Forall_cons in Hl1 as [(m & Hm & ?) _].
           congruence.
      * rewrite IH. split.
        -- intros (l1 & l2 & -> & Hl1 & Ht). exists (x :: l1), l2.
           split_and!; [done| |done]. constructor; [|done]. by exists n.
        -- intros (l1 & l2 & Heq & Hl1 & Ht).
           destruct l1 as [|y l1].
           ++ injection Heq as -> _. congruence.
           ++ injection Heq as -> ->. apply Forall_cons in Hl1 as [_ Hl1].
              by exists l1, l2.
    + split; [intros H; by apply find_unnamed in H|].
      intros (l1 & l2 & Heq & Hl1 & Ht). destruct l1 as [|y l1].
      * injection Heq as -> _. congruence.
      * injection Heq as -> _. apply Forall_cons in Hl1 as [(m & Hm & ?) _].
        congruence.
  - induction ordered as [|x ordered IH]; [by split|].
    destruct (name_of x) as [n|] eqn:Hn.
    + rewrite (find_cons _ _ _ _ Hn).
      destruct (String.eqb_spec name n) as [->|Hne].
      * split.
        -- intros [= ->]. by vm_compute in Hn.
        -- intros [(m & Hm & ?) _]%Forall_cons. congruence.
      * rewrite IH. split.
        -- intros H. constructor; [by exists n|done].
        -- by intros [_ ?]%Forall_cons.
    + split; [intros H; by apply find_unnamed in H|].
      intros [(m & Hm & ?) _]%Forall_cons. congruence.
  - intros l1 l2 Hl1. induction Hl1 as [|x l1 (n & Hn & Hne) _ IH]; [done|].
    change ((x :: l1) ++ None :: l2) with (x :: l1 ++ None :: l2).
    rewrite (find_cons _ _ _ _ Hn).
    by destruct (String.eqb_spec name n) as [->|_].
Qed.

(** Two declarations with one name, among uniquely named ones, are one. *)
Lemma declared_unique (types : list (option Type_)) a b n :
  NoDup (declared_names types) →
  Some a ∈ types → Some b ∈ types →
  name_of (Some a) = Some n → name_of (Some b) = Some n → a = b.
Proof.
  induction types as [|t types IH]; intros Hnd Ha Hb Hna Hnb;
    [by apply elem_of_nil in Ha|].
  assert (Hin : ∀ c, Some c ∈ types → name_of (Some c) = Some n →
            n ∈ declared_names types).
  { intros c Hc Hnc. apply list_elem_of_omap. eauto. }
  apply elem_of_cons in Ha as [Ha|Ha], Hb as [Hb|Hb].
  - congruence.
  - subst t. rewrite (declared_names_cons _ _ _ Hna) in Hnd.
    apply NoDup_cons in Hnd as [Hnotin _]. destruct Hnotin. by eapply Hin.
  - subst t. rewrite (declared_names_cons _ _ _ Hnb) in Hnd.
    apply NoDup_cons in Hnd as [Hnotin _]. destruct Hnotin. by eapply Hin.
  - apply IH; [|done..]. unfold declared_names in *. simpl in Hnd.
    destruct (name_of t); [by apply NoDup_cons in Hnd as [_ ?]|done].
Qed.

(** X5: for any table [namesBaseType], after [Build] over uniquely named
    Types, [find] on the output retrieves each declared Type by its name,
    when the name is neither a Base Type name nor an entry of the table. *)
Theorem find_after_Build namesBaseType fuel sb s t n :
  NoDup (declared_names (Schema_Types (proto sb))) →
  Build namesBaseType fuel sb = Returned s →
  Some t ∈ Schema_Types (proto sb) →
  name_of (Some t) = Some n → isBaseType n = false → n ∉ namesBaseType →
  find (Schema_Types s) n = Returned (Some t).
Proof.
  intros Hnd HB Ht Hn Hb Hns.
  pose proof (Build_permutation_kept _ _ _ _ Hnd HB) as Hperm.
  pose proof (Build_NoDup _ _ _ _ Hnd HB) as Hnodup.
  pose proof (Build_emits _ _ _ _ HB) as Hall.
  assert (Hin : Some t ∈ Schema_Types s).
  { rewrite Hperm. apply list_elem_of_filter. split; [|done].
    by apply (keeps_true _ _ _ Hn). }
  apply list_elem_of_split in Hin as (l1 & l2 & Hsplit).
  apply (proj1 (find_first (Schema_Types s) n)).
  exists l1, l2. split_and!; [done| |done].
  rewrite Forall_forall. intros x Hx.
  assert (Hxs : x ∈ Schema_Types s).
  { rewrite Hsplit. apply elem_of_app. by left. }
  rewrite Forall_forall in Hall.
  destruct (Hall x Hxs) as (t' & n' & -> & Hn' & _).
  exists n'. split; [done|]. intros ->.
  assert (t' = t) as ->.
  { apply (declared_unique (Schema_Types (proto sb)) t' t n); try done.
    rewrite Hperm in Hxs. by apply list_elem_of_filter in Hxs as [_ ?]. }
  rewrite Hsplit in Hnodup. apply NoDup_app in Hnodup as (_ & Hdisj & _).
  apply (Hdisj _ Hx). by left.
Qed.

Lemma find_after_Build_example :
  find (Schema_Types line_point_built) "Line" = Returned (Some Line).
Proof.
  apply (find_after_Build baseTypeNames 3 line_point line_point_built).
  - decide_by_compute.
  - by_compute.
  - elem_by_compute.
  - done.
  - done.
  - decide_by_compute.
Defined.

(** ** Several declarations of one name *)

Lemma collect_lookup_last types : ∀ all0 all n t,
  collect types all0 = Returned all → all !! n = Some t →
  (all0 !! n = Some t ∧ n ∉ declared_names types)
  ∨ ∃ l1 l2, types = l1 ++ Some t :: l2
             ∧ name_of (Some t) = Some n ∧ n ∉ declared_names l2.
Proof.
  induction types as [|x types IH]; intros all0 all n t H Hlook; simpl in H.
  { injection H as <-. left. split; [done|]. apply not_elem_of_nil. }
  inv_bind H. destruct a as [[nx sx] cx]. inv_bind H.
  apply deref_Returned in Ha0 as ->.
  assert (Hnx : name_of (Some a) = Some nx).
  { apply name_of_Some. exists sx. apply info_Some. eauto. }
  destruct (IH _ _ _ _ H Hlook) as [[Hins Hnot]|(l1 & l2 & -> & Hn & Hnot)].
  - destruct (decide (nx = n)) as [->|Hne].
    + rewrite lookup_insert_eq in Hins. injection Hins as ->.
      right. by exists [], types.
    + rewrite lookup_insert_ne in Hins by done. left. split; [done|].
      rewrite (declared_names_cons _ _ _ Hnx).
      apply not_elem_of_cons. by split.
  - right. by exists (Some a :: l1), l2.
Qed.

Section Entries.
Variable all : gmap string Type_.

(** An emitted entry is what the map holds under some name. *)
Definition entry_of_map (t : option Type_) : Prop :=
  ∃ t' n, t = Some t' ∧ all !! n = Some t'.

Definition emits_entries (rec : rstate → string → string → outcome rstate)
    : Prop :=
  ∀ st name super st',
    Forall entry_of_map st.1 → is_Some (all !! name) →
    rec st name super = Returned st' → Forall entry_of_map st'.1.

Lemma resolveRef_entries rec (st st' : rstate) ref :
  emits_entries rec → Forall entry_of_map st.1 →
  resolveRef rec all st ref = Returned st' → Forall entry_of_map st'.1.
Proof.
  intros Hrec Hst. unfold resolveRef. destruct (isBaseType ref); simpl.
  - by intros [= <-].
  - intros H. inv_bind H. destruct a as [[n s] c].
    destruct (TypeInfo_Returned _ _ Ha) as [t Ht].
    eapply Hrec; [done| |done]. by rewrite Ht.
Qed.

Lemma resolveFields_entries rec fields : ∀ (st st' : rstate),
  emits_entries rec → Forall entry_of_map st.1 →
  resolveFields rec all st fields = Returned st' → Forall entry_of_map st'.1.
Proof.
  induction fields as [|f fields IH]; intros st st' Hrec Hst; simpl.
  - by intros [= <-].
  - intros H. inv_bind H. eapply IH; [done| |done].
    by eapply resolveRef_entries.
Qed.

Lemma resolve_entries fuel : emits_entries (resolve fuel all).
Proof.
  induction fuel as [|fuel IH]; intros st name super st' Hst [t Ht];
    [discriminate|]. simpl.
  destruct (bool_decide (is_Some (st.2 !! name))); simpl;
    [by intros [= <-]|].
  destruct (isBaseType name) eqn:Hb; simpl; [by intros [= <-]|].
  intros H. inv_bind H. injection H as <-. simpl.
  apply Forall_app. split.
  - rewrite Ht in Ha. simpl in Ha.
    destruct (in_cases super no_dependencies); [by injection Ha as <-|].
    destruct (String.eqb super "Array").
    { inv_bind Ha. by eapply resolveRef_entries. }
    destruct (String.eqb super "Map").
    { inv_bind Ha. inv_bind Ha.
      eapply resolveRef_entries; [done| |done]. by eapply resolveRef_entries. }
    destruct (String.eqb super "Struct").
    { inv_bind Ha. by eapply resolveFields_entries. }
    by eapply resolveRef_entries.
  - apply Forall_singleton. by exists t, name.
Qed.

Lemma resolveAll_entries fuel types : ∀ (st st' : rstate),
  Forall entry_of_map st.1 →
  (∀ t n, t ∈ types → name_of t = Some n → is_Some (all !! n)) →
  resolveAll fuel all types st = Returned st' → Forall entry_of_map st'.1.
Proof.
  induction types as [|t types IH]; intros st st' Hst Hin H; simpl in H.
  - by injection H as <-.
  - inv_bind H. destruct a as [[n s] c]. inv_bind H.
    eapply IH; [|intros t' n' Ht'; apply Hin; by right|done].
    eapply resolve_entries; [done| |done].
    apply (Hin t); [by left|]. apply name_of_Some. exists s.
    apply info_Some. eauto.
Qed.
End Entries.

(** X6: whether or not the declared names are unique, every Type in the
    output of [Build] is a declared Type, and it is the last declaration of
    its name: of several Types appended under one name only the last can be
    emitted. *)
Theorem Build_emits_last_declaration namesBaseType fuel sb s t :
  Build namesBaseType fuel sb = Returned s →
  Some t ∈ Schema_Types s →
  ∃ l1 l2 n,
    Schema_Types (proto sb) = l1 ++ Some t :: l2
    ∧ name_of (Some t) = Some n ∧ n ∉ declared_names l2.
Proof.
  intros (all & st & Hc & Hr & ->)%Build_Returned Ht.
  assert (Hall : Forall (entry_of_map all) st.1).
  { eapply (resolveAll_entries all); [| |done]; [by constructor|].
    intros x n Hx Hn. apply (collect_dom _ _ _ Hc).
    apply list_elem_of_omap. eauto. }
  rewrite Forall_forall in Hall.
  destruct (Hall _ Ht) as (t' & n & [= <-] & Hlook).
  destruct (collect_lookup_last _ _ _ _ _ Hc Hlook)
    as [[Hempty _]|(l1 & l2 & Hsplit & Hn & Hnot)].
  - by rewrite lookup_empty in Hempty.
  - by exists l1, l2, n.
Qed.

Lemma Build_emits_last_declaration_example :
  ∃ l1 l2 n,
    Schema_Types (proto (declare "ids" [Id_first; Id_second; Tag]))
    = l1 ++ Some Id_second :: l2
    ∧ name_of (Some Id_second) = Some n ∧ n ∉ declared_names l2.
Proof.
  apply (Build_emits_last_declaration baseTypeNames 3
           (declare "ids" [Id_first; Id_second; Tag])
           (mkSchema "ids" "" None "" "" [Some Id_second; Some Tag] [])).
  - by_compute.
  - elem_by_compute.
Defined.

(** ** [Build] returns on acyclic schemas *)

Section Ranked.
Variable all : gmap string Type_.
Variable rank : string → nat.

Hypothesis all_wf :
  ∀ k t, all !! k = Some t → ∃ s, info (Some t) = Some (k, s).

(** Under a name that is not a Base Type name the map holds a descriptor
    with the definition its supertype selects, whose followed references
    are Base Type names or registered names of smaller rank. *)
Hypothesis all_ranked : ∀ n t s,
  all !! n = Some t → info (Some t) = Some (n, s) → isBaseType n = false →
  defs_present (Some t) = true
  ∧ ∀ r, r ∈ followed s t → isBaseType r = false →
         is_Some (all !! r) ∧ rank r < rank n.

(** Reference [r] can be followed within the bound. *)
Definition within (bound : nat) (r : string) : Prop :=
  isBaseType r = true ∨ (is_Some (all !! r) ∧ rank r < bound).

Definition returns_below (bound : nat)
    (rec : rstate → string → string → outcome rstate) : Prop :=
  ∀ st name super,
    consistent all name super → rank name < bound →
    ∃ st', rec st name super = Returned st'.

Lemma resolveRef_returns bound rec st r :
  returns_below bound rec → within bound r →
  ∃ st', resolveRef rec all st r = Returned st'.
Proof.
  intros Hrec Hr. unfold resolveRef.
  destruct (isBaseType r) eqn:Hb; simpl; [by eexists|].
  destruct Hr as [?|[[t Ht] Hrank]]; [congruence|].
  destruct (all_wf _ _ Ht) as [s Hs]. pose proof Hs as [c Hi]%info_Some.
  rewrite Ht, Hi. simpl. apply Hrec; [|done]. by exists t.
Qed.

Lemma resolveFields_returns bound rec fields : ∀ st,
  returns_below bound rec →
  (∀ f, f ∈ fields → within bound (Field_Type f)) →
  ∃ st', resolveFields rec all st fields = Returned st'.
Proof.
  induction fields as [|f fields IH]; intros st Hrec Hfs; simpl;
    [by eexists|].
  destruct (resolveRef_returns bound rec st (Field_Type f)) as [st1 ->];
    [done|apply Hfs; by left|].
  simpl. apply IH; [done|]. intros f' Hf'. apply Hfs. by right.
Qed.

Lemma resolve_returns fuel : returns_below fuel (resolve fuel all).
Proof.
  induction fuel as [|fuel IH]; intros st name super Hc Hrank; [lia|].
  simpl. destruct (bool_decide (is_Some (st.2 !! name))); simpl;
    [by eexists|].
  destruct (isBaseType name) eqn:Hb; simpl; [by eexists|].
  destruct Hc as (t & Ht & Hi).
  destruct (all_ranked _ _ _ Ht Hi Hb) as [Hdefs Hrefs].
  assert (Hwithin : ∀ r, r ∈ followed super t → within fuel r).
  { intros r Hr. destruct (isBaseType r) eqn:Hrb; [by left|right].
    destruct (Hrefs r Hr Hrb). split; [done|lia]. }
  rewrite Ht. simpl. unfold defs_present in Hdefs. rewrite Hi in Hdefs.
  unfold followed in Hwithin.
  assert (Hclose : ∀ o : outcome rstate, (∃ st1, o = Returned st1) →
            ∃ st', o ≫= (λ st0, mret (st0.1 ++ [Some t],
                                      <[name := true]> (st0.2)))
                   = Returned st').
  { intros o [st1 ->]. by eexists. }
  apply Hclose.
  destruct (in_cases super no_dependencies); [by eexists|].
  destruct (String.eqb super "Array").
  { apply bool_decide_eq_true in Hdefs as [d Hd]. rewrite Hd in *. simpl.
    apply (resolveRef_returns fuel); [done|]. apply Hwithin. by left. }
  destruct (String.eqb super "Map").
  { apply bool_decide_eq_true in Hdefs as [d Hd]. rewrite Hd in *. simpl.
    destruct (resolveRef_returns fuel (resolve fuel all) st (Map_Items d))
      as [st1 ->]; [done|apply Hwithin; by left|].
    simpl. apply (resolveRef_returns fuel); [done|].
    apply Hwithin. right. by left. }
  destruct (String.eqb super "Struct").
  { apply bool_decide_eq_true in Hdefs as [d Hd]. rewrite Hd in *. simpl.
    apply (resolveFields_returns fuel); [done|].
    intros f Hf. apply Hwithin. by apply list_elem_of_fmap_2. }
  apply (resolveRef_returns fuel); [done|]. apply Hwithin. by left.
Qed.

Lemma resolveAll_returns fuel types : ∀ st,
  (∀ t, t ∈ types → ∃ n s, info t = Some (n, s) ∧ consistent all n s
                           ∧ rank n < fuel) →
  ∃ st', resolveAll fuel all types st = Returned st'.
Proof.
  induction types as [|t types IH]; intros st Hts; simpl; [by eexists|].
  destruct (Hts t) as (n & s & [c Hi]%info_Some & Hc & Hrank); [by left|].
  rewrite Hi. simpl.
  destruct (resolve_returns fuel st n s Hc Hrank) as [st1 ->]. simpl.
  apply IH. intros t' Ht'. apply Hts. by right.
Qed.
End Ranked.

(** X7: [Build] returns a Schema on every acyclic, well-formed schema. When
    the declared Types are descriptors with unique names, each with the
    definition its supertype selects, and some rank on names decreases along
    every reference the resolver follows (which then names a declared
    Type), a recursion bound above all ranks is enough. *)
Theorem Build_returns_when_ranked namesBaseType fuel sb (rank : string → nat) :
  Forall (λ t, is_Some (name_of t)) (Schema_Types (proto sb)) →
  NoDup (declared_names (Schema_Types (proto sb))) →
  (∀ t n, Some t ∈ Schema_Types (proto sb) → name_of (Some t) = Some n →
          isBaseType n = false →
          defs_present (Some t) = true
          ∧ ∀ r, r ∈ references_followed t → isBaseType r = false →
                 r ∈ declared_names (Schema_Types (proto sb))
                 ∧ rank r < rank n) →
  (∀ n, n ∈ declared_names (Schema_Types (proto sb)) → rank n < fuel) →
  ∃ s, Build namesBaseType fuel sb = Returned s.
Proof.
  intros Hnamed Hnd Hranked Hfuel. unfold Build.
  destruct (collect_returns _ ∅ Hnamed) as [all Hc].
  rewrite Hc, bind_Returned_l.
  pose proof (collect_wf _ _ Hc) as Hwf.
  destruct (collect_spec _ _ _ Hc) as (Hall & Hout & Hin & Huniq).
  assert (Hdeclared : ∀ n t, all !! n = Some t →
            Some t ∈ Schema_Types (proto sb) ∧ name_of (Some t) = Some n).
  { intros n t Ht.
    assert (n ∈ declared_names (Schema_Types (proto sb))) as Hn
      by (apply (collect_dom _ _ _ Hc); eauto).
    destruct (Hin n Hn) as (t' & Ht' & ? & ?). by simplify_eq. }
  destruct (resolveAll_returns all rank Hwf) with
    (fuel := fuel) (types := Schema_Types (proto sb))
    (st := (([], seed namesBaseType) : rstate)) as [st Hst].
  - intros n t s Ht Hi Hb. destruct (Hdeclared _ _ Ht) as [Hin' Hn].
    destruct (Hranked t n Hin' Hn Hb) as [Hdefs Hrefs]. split; [done|].
    intros r Hr Hrb. destruct (Hrefs r) as [Hdecl Hlt]; [|done|].
    { unfold references_followed. by rewrite Hi. }
    split; [|done]. by apply (collect_dom _ _ _ Hc).
  - intros t Ht. rewrite Forall_forall in Hall.
    destruct (Hall t Ht) as (t' & -> & [n Hn]).
    pose proof Hn as [s Hi]%name_of_Some. exists n, s. split_and!; [done| |].
    + exists t'. split; [|done]. by apply (Huniq Hnd).
    + apply Hfuel, list_elem_of_omap. eauto.
  - rewrite Hst. by eexists.
Qed.

Lemma Build_returns_when_ranked_example :
  ∃ s, Build baseTypeNames 2 line_point = Returned s.
Proof.
  apply (Build_returns_when_ranked baseTypeNames 2 line_point
           (λ n, if String.eqb n "Line" then 1 else 0)).
  - by repeat constructor.
  - decide_by_compute.
  - intros t n Ht Hn Hb.
    change (Schema_Types (proto line_point)) with [Some Line; Some Point]
      in Ht.
    apply elem_of_cons in Ht as [[= ->]|Ht];
      [|apply list_elem_of_singleton in Ht as [= ->]];
      injection Hn as <-; (split; [done|]); intros r Hr Hrb;
      vm_compute in Hr;
      repeat (apply elem_of_cons in Hr as [->|Hr]; [try discriminate|]);
      try (by apply elem_of_nil in Hr).
    all: split; [elem_by_compute|by_compute].
  - intros n Hn.
    change (declared_names (Schema_Types (proto line_point)))
      with ["Line"; "Point"] in Hn.
    repeat (apply elem_of_cons in Hn as [->|Hn]; [vm_compute; lia|]).
    by apply elem_of_nil in Hn.
Defined.

(** ** Building twice *)

Section Present.
Variable all : gmap string Type_.
Hypothesis all_wf :
  ∀ k t, all !! k = Some t → ∃ s, info (Some t) = Some (k, s).

Definition all_present (st : rstate) : Prop :=
  Forall (λ t, defs_present t = true) st.1.

Definition keeps_present (rec : rstate → string → string → outcome rstate)
    : Prop :=
  ∀ st name super st',
    consistent all name super → all_present st →
    rec st name super = Returned st' → all_present st'.

Lemma resolveRef_present rec (st st' : rstate) ref :
  keeps_present rec → all_present st →
  resolveRef rec all st ref = Returned st' → all_present st'.
Proof.
  intros Hrec Hst. unfold resolveRef. destruct (isBaseType ref); simpl.
  - by intros [= <-].
  - intros H. inv_bind H. destruct a as [[n s] c].
    destruct (TypeInfo_Returned _ _ Ha) as [t Ht].
    destruct (all_wf _ _ Ht) as [s' Hs].
    assert (info (Some t) = Some (n, s)) as Hi
      by (apply info_Some; exists c; by rewrite <- Ht).
    rewrite Hs in Hi. simplify_eq.
    eapply Hrec; [|done..]. by exists t.
Qed.

Lemma resolveFields_present rec fields : ∀ (st st' : rstate),
  keeps_present rec → all_present st →
  resolveFields rec all st fields = Returned st' → all_present st'.
Proof.
  induction fields as [|f fields IH]; intros st st' Hrec Hst; simpl.
  - by intros [= <-].
  - intros H. inv_bind H. eapply IH; [done| |done].
    by eapply resolveRef_present.
Qed.

Lemma resolve_present fuel : keeps_present (resolve fuel all).
Proof.
  induction fuel as [|fuel IH]; intros st name super st' (t & Ht & Hi) Hst;
    [discriminate|]. simpl.
  destruct (bool_decide (is_Some (st.2 !! name))); simpl;
    [by intros [= <-]|].
  destruct (isBaseType name) eqn:Hb; simpl; [by intros [= <-]|].
  intros H. inv_bind H. injection H as <-. unfold all_present. simpl.
  rewrite Ht in *. simpl in Ha.
  assert (Hgoal : all_present a ∧ defs_present (Some t) = true).
  { unfold defs_present. rewrite Hi.
    destruct (in_cases super no_dependencies) eqn:Hnd.
    { injection Ha as <-. split; [done|].
      apply in_cases_true in Hnd. unfold no_dependencies in Hnd.
      repeat (apply elem_of_cons in Hnd as [->|Hnd]; [done|]).
      by apply elem_of_nil in Hnd. }
    destruct (String.eqb super "Array").
    { inv_bind Ha. apply deref_Returned in Ha0. rewrite Ha0.
      split; [by eapply resolveRef_present|by apply bool_decide_eq_true_2]. }
    destruct (String.eqb super "Map").
    { inv_bind Ha. apply deref_Returned in Ha0. rewrite Ha0. inv_bind Ha.
      split; [|by apply bool_decide_eq_true_2].
      eapply resolveRef_present; [done| |done]. by eapply resolveRef_present. }
    destruct (String.eqb super "Struct").
    { inv_bind Ha. apply deref_Returned in Ha0. rewrite Ha0.
      split; [by eapply resolveFields_present
             |by apply bool_decide_eq_true_2]. }
    split; [by eapply resolveRef_present|done]. }
  destruct Hgoal as [Ha' Ht']. apply Forall_app. split; [done|].
  by apply Forall_singleton.
Qed.

Lemma resolveAll_present fuel types : ∀ (st st' : rstate),
  all_present st →
  (∀ t n s, t ∈ types → info t = Some (n, s) → consistent all n s) →
  resolveAll fuel all types st = Returned st' → all_present st'.
Proof.
  induction types as [|t types IH]; intros st st' Hst Hcons H; simpl in H.
  - by injection H as <-.
  - inv_bind H. destruct a as [[n s] c]. inv_bind H.
    eapply IH; [|intros t' n' s' Ht'; apply Hcons; by right|done].
    eapply resolve_present; [|done..].
    apply (Hcons t); [by left|]. apply info_Some. eauto.
Qed.
End Present.

Lemma Build_present namesBaseType fuel sb s :
  NoDup (declared_names (Schema_Types (proto sb))) →
  Build namesBaseType fuel sb = Returned s →
  Forall (λ t, defs_present t = true) (Schema_Types s).
Proof.
  intros Hnd (all & st & Hc & Hr & ->)%Build_Returned.
  destruct (collect_spec _ _ _ Hc) as (Hall & _ & _ & Huniq).
  eapply (resolveAll_present all (collect_wf _ _ Hc)); [| |done];
    [by constructor|].
  intros t n sup Ht Hi. rewrite Forall_forall in Hall.
  destruct (Hall t Ht) as (t' & -> & _). exists t'. split; [|done].
  apply (Huniq Hnd); [done|]. apply name_of_Some. eauto.
Qed.

Lemma Build_declared_names namesBaseType fuel sb s :
  NoDup (declared_names (Schema_Types (proto sb))) →
  Build namesBaseType fuel sb = Returned s →
  NoDup (declared_names (Schema_Types s)).
Proof.
  intros Hnd HB.
  destruct (Build_emitted _ _ _ _ Hnd HB)
    as (all & st & em & Hc & -> & Hinv & _).
  pose proof (collect_wf _ _ Hc) as Hwf.
  rewrite (inv_ordered _ _ _ _ Hinv).
  assert (Hnames : ∀ l, (∀ n, n ∈ l → is_Some (all !! n)) →
            declared_names (map (λ n, all !! n) l) = l).
  { induction l as [|n l IH]; intros Hl; [done|].
    destruct (Hl n) as [t Ht]; [by left|]. cbn [map]. rewrite Ht.
    destruct (Hwf _ _ Ht) as [sup Hi].
    rewrite (declared_names_cons _ _ n) by (apply name_of_Some; eauto).
    f_equal. apply IH. intros n' Hn'. apply Hl. by right. }
  rewrite Hnames; [by eapply inv_nodup|].
  intros n Hn. by apply (inv_names _ _ _ _ Hinv).
Qed.

(** X8: [Build] stores its output in the builder, and building again
    changes nothing. For any table [namesBaseType], over uniquely named
    Types of which none is named by an entry of the table that is not a
    Base Type name, once [Build] has returned a Schema, [Build] on the
    builder that now holds this Schema returns the same Schema, for every
    recursion bound of at least two. *)
Theorem Build_twice namesBaseType fuel fuel' sb s :
  NoDup (declared_names (Schema_Types (proto sb))) →
  (∀ n, n ∈ declared_names (Schema_Types (proto sb)) →
        n ∈ namesBaseType → isBaseType n = true) →
  Build namesBaseType fuel sb = Returned s →
  (2 ≤ fuel')%nat →
  Build namesBaseType fuel' (mkSchemaBuilder s (err sb)) = Returned s.
Proof.
  intros Hnd Htable HB Hfuel.
  destruct fuel' as [|[|fuel']]; [lia..|]. unfold Build. simpl.
  pose proof (Build_emits _ _ _ _ HB) as Hemits.
  pose proof (Build_permutation_kept _ _ _ _ Hnd HB) as Hperm.
  assert (Hkeeps : Forall (λ t, keeps namesBaseType t = true)
                     (Schema_Types s)).
  { rewrite Forall_forall. intros t Ht. rewrite Hperm in Ht.
    by apply list_elem_of_filter in Ht as [? _]. }
  destruct (collect_returns (Schema_Types s) ∅) as [all Hc].
  { eapply Forall_impl; [exact Hemits|].
    intros t (t' & n & -> & Hn & _). by rewrite Hn. }
  rewrite Hc, bind_Returned_l.
  destruct (collect_spec _ _ _ Hc) as (_ & _ & _ & Huniq).
  pose proof (Build_declared_names _ _ _ _ Hnd HB) as Hnd'.
  destruct (resolveAll_in_order fuel' all namesBaseType
              (Schema_Types s) (collect_wf _ _ Hc)) with
    (pre := @nil (option Type_)) (resolved := seed namesBaseType)
    as [resolved' Hr]; try done.
  - rewrite dom_seed. set_solver.
  - by apply Huniq.
  - by eapply Build_present.
  - intros k t r Hk Hr Hrb. simpl.
    apply (Build_followed_before _ _ _ _ Hnd HB k t r); [done..|].
    intros Hrs.
    assert (Hd : r ∈ declared_names (Schema_Types (proto sb))).
    { apply (Build_followed_declared _ _ _ _ Hnd HB t r); [|done..].
      apply list_elem_of_lookup. eauto. }
    pose proof (Htable r Hd Hrs). congruence.
  - simpl in Hr. rewrite Hr. simpl. by destruct s.
Qed.

Lemma Build_twice_example :
  Build baseTypeNames 2 (mkSchemaBuilder line_point_built (err line_point))
  = Returned line_point_built.
Proof.
  apply (Build_twice baseTypeNames 3 2 line_point line_point_built).
  - decide_by_compute.
  - intros n _. apply baseTypeNames_base.
  - by_compute.
  - lia.
Defined.

(** * The builders as chains of calls *)

(** The value of the last call that sets a field, [d] when no call does. *)
Definition last_set {A : Type} (d : A) (values : list A) : A :=
  default d (last values).

Lemma last_set_snoc {A : Type} (d : A) (values : list A) (x : A) :
  last_set d (values ++ [x]) = x.
Proof. unfold last_set. by rewrite last_snoc. Qed.

(** ** Schema builder *)

Definition Namespace (sb : SchemaBuilder) (ns : string) : SchemaBuilder :=
  let p := proto sb in
  mkSchemaBuilder
    (mkSchema (Schema_Name p) ns (Schema_Version p) (Schema_Base p)
       (Schema_Comment p) (Schema_Types p) (Schema_Resources p))
    (err sb).

Definition Version (sb : SchemaBuilder) (version : Z) : SchemaBuilder :=
  let p := proto sb in
  mkSchemaBuilder
    (mkSchema (Schema_Name p) (Schema_Namespace p) (Some version)
       (Schema_Base p) (Schema_Comment p) (Schema_Types p)
       (Schema_Resources p))
    (err sb).

Definition Base (sb : SchemaBuilder) (base : string) : SchemaBuilder :=
  let p := proto sb in
  mkSchemaBuilder
    (mkSchema (Schema_Name p) (Schema_Namespace p) (Schema_Version p) base
       (Schema_Comment p) (Schema_Types p) (Schema_Resources p))
    (err sb).

Definition Comment (sb : SchemaBuilder) (comment : string) : SchemaBuilder :=
  let p := proto sb in
  mkSchemaBuilder
    (mkSchema (Schema_Name p) (Schema_Namespace p) (Schema_Version p)
       (Schema_Base p) comment (Schema_Types p) (Schema_Resources p))
    (err sb).

(** One chained call on a schema builder. *)
Inductive schema_call : Type :=
  | SetNamespace (ns : string)
  | SetVersion (version : Z)
  | SetBase (base : string)
  | SetComment (comment : string)
  | DoAddType (t : option Type_)
  | DoAddResource (r : Resource).

Definition schema_apply (sb : SchemaBuilder) (c : schema_call)
    : SchemaBuilder :=
  match c with
  | SetNamespace ns => Namespace sb ns
  | SetVersion version => Version sb version
  | SetBase base => Base sb base
  | SetComment comment => Comment sb comment
  | DoAddType t => AddType sb t
  | DoAddResource r => AddResource sb r
  end.

Definition schema_chain (sb : SchemaBuilder) (calls : list schema_call)
    : SchemaBuilder :=
  foldl schema_apply sb calls.

Definition namespace_of (c : schema_call) : option string :=
  match c with SetNamespace ns => Some ns | _ => None end.
Definition version_of (c : schema_call) : option Z :=
  match c with SetVersion v => Some v | _ => None end.
Definition base_of (c : schema_call) : option string :=
  match c with SetBase b => Some b | _ => None end.
Definition comment_of (c : schema_call) : option string :=
  match c with SetComment s => Some s | _ => None end.
Definition type_of (c : schema_call) : option (option Type_) :=
  match c with DoAddType t => Some t | _ => None end.
Definition resource_of (c : schema_call) : option Resource :=
  match c with DoAddResource r => Some r | _ => None end.

Lemma schema_chain_snoc sb calls c :
  schema_chain sb (calls ++ [c]) = schema_apply (schema_chain sb calls) c.
Proof. unfold schema_chain. by rewrite foldl_app. Qed.

Lemma schema_chain_proto name calls :
  proto (schema_chain (NewSchemaBuilder name) calls)
  = mkSchema name
      (last_set "" (omap namespace_of calls))
      (last (omap version_of calls))
      (last_set "" (omap base_of calls))
      (last_set "" (omap comment_of calls))
      (omap type_of calls)
      (omap resource_of calls).
Proof.
  induction calls as [|c calls IH] using rev_ind; [done|].
  rewrite schema_chain_snoc, !omap_app.
  destruct c; simpl; rewrite IH; simpl; rewrite ?app_nil_r;
    rewrite ?last_set_snoc, ?last_snoc; done.
Qed.

(** X9: a schema builder keeps the Types and the Resources in the order of
    the AddType and AddResource calls, whatever other calls come between,
    and each of namespace, version, base and comment is that of its last
    setter call. [Build] changes the Types only: the Schema it returns has
    the constructor's name, the last values set, and the Resources in
    AddResource order. *)
Theorem schema_chain_Build name calls :
  let sb := schema_chain (NewSchemaBuilder name) calls in
  Schema_Types (proto sb) = omap type_of calls
  ∧ ∀ namesBaseType fuel s,
      Build namesBaseType fuel sb = Returned s →
      Schema_Name s = name
      ∧ Schema_Namespace s = last_set "" (omap namespace_of calls)
      ∧ Schema_Version s = last (omap version_of calls)
      ∧ Schema_Base s = last_set "" (omap base_of calls)
      ∧ Schema_Comment s = last_set "" (omap comment_of calls)
      ∧ Schema_Resources s = omap resource_of calls.
Proof.
  intros sb. subst sb. split; [by rewrite schema_chain_proto|].
  intros nb fuel s HB. unfold Build in HB. inv_bind HB. inv_bind HB.
  injection HB as <-. rewrite schema_chain_proto. done.
Qed.

(** ** Resource builder *)

Definition input_of (c : ResourceBuilder.call) : option ResourceInput :=
  match c with
  | ResourceBuilder.CallInput name typename pparam qparam header optional
      def comment =>
      Some (mkResourceInput name typename comment pparam qparam header def
              optional)
  | _ => None
  end.

Definition output_of (c : ResourceBuilder.call) : option ResourceOutput :=
  match c with
  | ResourceBuilder.CallOutput name typename header optional comment =>
      Some (mkResourceOutput name typename comment header optional)
  | _ => None
  end.

Definition auth_of (c : ResourceBuilder.call) : option ResourceAuth :=
  match c with
  | ResourceBuilder.CallAuth action resource authn domain =>
      Some (mkResourceAuth authn action resource domain)
  | _ => None
  end.

Definition expected_of (c : ResourceBuilder.call) : option string :=
  match c with ResourceBuilder.CallExpected sym => Some sym | _ => None end.

Definition resource_name_of (c : ResourceBuilder.call) : option string :=
  match c with ResourceBuilder.CallName sym => Some sym | _ => None end.

Definition resource_comment_of (c : ResourceBuilder.call) : option string :=
  match c with ResourceBuilder.CallComment s => Some s | _ => None end.

(** Does call [c] register an exception at all? *)
Definition is_registration (c : ResourceBuilder.call) : bool :=
  match c with ResourceBuilder.CallException _ _ _ => true | _ => false end.

Lemma resource_chain_snoc rb calls c :
  ResourceBuilder.chain rb (calls ++ [c])
  = ResourceBuilder.apply (ResourceBuilder.chain rb calls) c.
Proof. unfold ResourceBuilder.chain. by rewrite foldl_app. Qed.

(** X10: the finished Resource keeps the type, method and path of the
    constructor; its inputs and outputs are those of the Input and Output
    calls, in call order, whatever calls come between; its expected outcome
    is that of the last Expected call and OK when there is none; auth, name
    and comment are those of their last setter call. *)
Theorem resource_chain_fields typename method path
    (calls : list ResourceBuilder.call) :
  let r :=
    ResourceBuilder.Build
      (ResourceBuilder.chain (ResourceBuilder.New typename method path) calls)
  in
  Resource_Type r = typename
  ∧ Resource_Method r = method
  ∧ Resource_Path r = path
  ∧ Resource_Inputs r = omap input_of calls
  ∧ Resource_Outputs r = omap output_of calls
  ∧ Resource_Expected r = last_set "OK" (omap expected_of calls)
  ∧ Resource_Auth r = last (omap auth_of calls)
  ∧ Resource_Name r = last_set "" (omap resource_name_of calls)
  ∧ Resource_Comment r = last_set "" (omap resource_comment_of calls).
Proof.
  intros r. subst r. unfold ResourceBuilder.Build.
  induction calls as [|c calls IH] using rev_ind; [done|].
  destruct IH as (Ht & Hm & Hp & Hi & Ho & He & Ha & Hn & Hc).
  rewrite resource_chain_snoc, !omap_app.
  destruct c; simpl; rewrite ?app_nil_r, ?last_set_snoc, ?last_snoc;
    rewrite ?Hi, ?Ho; done.
Qed.

(** X11: the exception map of the finished Resource stays nil exactly when
    Exception was never called, and it has an entry under a symbol exactly
    when some call registered an exception under that symbol. *)
Theorem resource_chain_exceptions typename method path
    (calls : list ResourceBuilder.call) :
  let r :=
    ResourceBuilder.Build
      (ResourceBuilder.chain (ResourceBuilder.New typename method path) calls)
  in
  (Resource_Exceptions r = None ↔
   Forall (λ c, is_registration c = false) calls)
  ∧ ∀ sym, is_Some (ResourceBuilder.exception r sym) ↔
           Exists (λ c, ResourceBuilder.registers sym c = true) calls.
Proof.
  intros r. subst r. unfold ResourceBuilder.Build. split.
  - induction calls as [|c calls IH] using rev_ind; [by split|].
    rewrite resource_chain_snoc, Forall_app, Forall_singleton, <- IH.
    destruct c; simpl; try (split; [by intros ?|by intros [? _]]).
    split; [done|by intros [_ ?]].
  - intros sym. induction calls as [|c calls IH] using rev_ind.
    { split; [by intros [? ?]|by intros ?%Exists_nil]. }
    rewrite resource_chain_snoc, exception_apply, Exists_app, <- IH.
    rewrite Exists_cons, Exists_nil.
    destruct c; simpl; try (split; [by left|by intros [?|[?|?]]]).
    case_decide as Hs.
    + subst. rewrite String.eqb_refl. split; [right; by left|by eexists].
    + apply String.eqb_neq in Hs. rewrite Hs.
      split; [by left|by intros [?|[?|?]]].
Qed.

(** ** Struct builder *)

Inductive struct_call : Type :=
  | StructComment (comment : string)
  | StructField (fname ftype : string) (optional : bool) (def : Value)
      (comment : string)
  | StructMapField (fname fkeys fitems : string) (optional : bool)
      (comment : string)
  | StructArrayField (fname fitems : string) (optional : bool)
      (comment : string).

Definition struct_apply (tb : StructTypeBuilder.t) (c : struct_call)
    : StructTypeBuilder.t :=
  match c with
  | StructComment comment => StructTypeBuilder.Comment tb comment
  | StructField fname ftype optional def comment =>
      StructTypeBuilder.Field tb fname ftype optional def comment
  | StructMapField fname fkeys fitems optional comment =>
      StructTypeBuilder.MapField tb fname fkeys fitems optional comment
  | StructArrayField fname fitems optional comment =>
      StructTypeBuilder.ArrayField tb fname fitems optional comment
  end.

Definition struct_chain (tb : StructTypeBuilder.t) (calls : list struct_call)
    : StructTypeBuilder.t :=
  foldl struct_apply tb calls.

(** The field type that a call records: the given type for a plain field,
    the Base Type Map or Array for an inline field. *)
Definition recorded_type (c : struct_call) : option string :=
  match c with
  | StructComment _ => None
  | StructField _ ftype _ _ _ => Some ftype
  | StructMapField _ _ _ _ _ => Some "Map"
  | StructArrayField _ _ _ _ => Some "Array"
  end.

Lemma struct_chain_snoc tb calls c :
  struct_chain tb (calls ++ [c]) = struct_apply (struct_chain tb calls) c.
Proof. unfold struct_chain. by rewrite foldl_app. Qed.

Lemma struct_chain_proto supertype name calls :
  let d := StructTypeBuilder.proto
             (struct_chain (StructTypeBuilder.New supertype name) calls) in
  Struct_Type d = supertype ∧ Struct_Name d = name
  ∧ map Field_Type (Struct_Fields d) = omap recorded_type calls.
Proof.
  induction calls as [|c calls IH] using rev_ind; [done|].
  destruct IH as (Ht & Hn & Hf). rewrite struct_chain_snoc, omap_app.
  destruct c; simpl; rewrite ?map_app, ?app_nil_r; simpl; rewrite ?Hf; done.
Qed.

(** X12: a descriptor of the struct builder has the constructor's name and
    supertype whatever calls follow, and one field per field call, in call
    order. With supertype Struct the references the resolver follows from
    it are the types given to Field, and the Base Types Map and Array for
    the inline fields of MapField and ArrayField: the keys and items of
    inline fields are never followed. *)
Theorem struct_chain_references supertype name (calls : list struct_call) :
  let t :=
    StructTypeBuilder.Build
      (struct_chain (StructTypeBuilder.New supertype name) calls) in
  info (Some t) = Some (name, supertype)
  ∧ (∀ d, T_StructTypeDef t = Some d →
          map Field_Type (Struct_Fields d) = omap recorded_type calls)
  ∧ (supertype = "Struct" →
     references_followed t = omap recorded_type calls)
  ∧ defs_present (Some t)
    = negb (String.eqb supertype "Array" || String.eqb supertype "Map").
Proof.
  intros t. subst t.
  destruct (struct_chain_proto supertype name calls) as (Ht & Hn & Hf).
  assert (Hi : info (Some (StructTypeBuilder.Build
                 (struct_chain (StructTypeBuilder.New supertype name) calls)))
               = Some (name, supertype)).
  { unfold info. simpl. by rewrite Ht, Hn. }
  split_and!; [done| | |].
  - by intros d [= <-].
  - intros ->. unfold references_followed. rewrite Hi. by simpl.
  - unfold defs_present. rewrite Hi. simpl.
    destruct (String.eqb supertype "Array"); [done|].
    destruct (String.eqb supertype "Map"); [done|].
    by destruct (String.eqb supertype "Struct").
Qed.

(** ** String builder *)

Inductive string_call : Type :=
  | StringComment (comment : string)
  | StringPattern (pattern : string)
  | StringMaxSize (maxsize : Z)
  | StringMinSize (minsize : Z).

Definition string_apply (tb : StringTypeBuilder.t) (c : string_call)
    : StringTypeBuilder.t :=
  match c with
  | StringComment comment => StringTypeBuilder.Comment tb comment
  | StringPattern pattern => StringTypeBuilder.Pattern tb pattern
  | StringMaxSize maxsize => StringTypeBuilder.MaxSize tb maxsize
  | StringMinSize minsize => StringTypeBuilder.MinSize tb minsize
  end.

Definition string_chain (tb : StringTypeBuilder.t) (calls : list string_call)
    : StringTypeBuilder.t :=
  foldl string_apply tb calls.

Definition pattern_of (c : string_call) : option string :=
  match c with StringPattern p => Some p | _ => None end.
Definition maxsize_of (c : string_call) : option Z :=
  match c with StringMaxSize n => Some n | _ => None end.
Definition minsize_of (c : string_call) : option Z :=
  match c with StringMinSize n => Some n | _ => None end.
Definition string_comment_of (c : string_call) : option string :=
  match c with StringComment s => Some s | _ => None end.

Lemma string_chain_snoc tb calls c :
  string_chain tb (calls ++ [c]) = string_apply (string_chain tb calls) c.
Proof. unfold string_chain. by rewrite foldl_app. Qed.

Lemma string_chain_st name calls :
  StringTypeBuilder.st (string_chain (StringTypeBuilder.New name) calls)
  = mkStringTypeDef "String" name
      (last_set "" (omap string_comment_of calls))
      (last_set "" (omap pattern_of calls))
      None
      (last (omap minsize_of calls))
      (last (omap maxsize_of calls)).
Proof.
  induction calls as [|c calls IH] using rev_ind; [done|].
  rewrite string_chain_snoc, !omap_app.
  destruct c; simpl; rewrite IH; simpl; rewrite ?app_nil_r;
    rewrite ?last_set_snoc, ?last_snoc; done.
Qed.

(** X13: whatever is configured, the String builder builds a Type with the
    constructor's name and the supertype String, from which the resolver
    follows no reference. It is the Alias descriptor exactly when MaxSize
    and MinSize were never called and the last Pattern call, if any, set
    the empty pattern; a size bound of zero is a bound. *)
Theorem string_chain_Build name (calls : list string_call) :
  let t :=
    StringTypeBuilder.Build
      (string_chain (StringTypeBuilder.New name) calls) in
  info (Some t) = Some (name, "String")
  ∧ references_followed t = []
  ∧ (Variant t = TypeVariantAliasTypeDef ↔
     last_set "" (omap pattern_of calls) = ""
     ∧ omap maxsize_of calls = [] ∧ omap minsize_of calls = []).
Proof.
  intros t. subst t. unfold StringTypeBuilder.Build.
  rewrite string_chain_st. simpl.
  assert (Hlast : ∀ l : list Z, last l = None ↔ l = []).
  { intros l. split; [|by intros ->].
    destruct l as [|x l] using rev_ind; [done|]. by rewrite last_snoc. }
  destruct (String.eqb_spec (last_set "" (omap pattern_of calls)) "")
    as [Hp|Hp]; simpl.
  2: { split_and!; [done..|]. split; [done|]. by intros [? _]. }
  destruct (last (omap maxsize_of calls)) as [n|] eqn:Hmax; simpl.
  { split_and!; [done..|]. split; [done|]. intros (_ & Hnil & _).
    rewrite Hnil in Hmax. done. }
  destruct (last (omap minsize_of calls)) as [n|] eqn:Hmin; simpl.
  { split_and!; [done..|]. split; [done|]. intros (_ & _ & Hnil).
    rewrite Hnil in Hmin. done. }
  split_and!; [done..|]. split; [|done]. intros _.
  split_and!; [done|by apply Hlast..].
Qed.

(** ** Enum builder *)

Module EnumTypeBuilder.
Record t : Type := mk { proto : EnumTypeDef }.

Definition New (supertype name : string) : t :=
  mk (mkEnumTypeDef supertype name "" []).

Definition Comment (tb : t) (comment : string) : t :=
  let d := proto tb in
  mk (mkEnumTypeDef (Enum_Type d) (Enum_Name d) comment (Enum_Elements d)).

Definition Element (tb : t) (sym comment : string) : t :=
  let d := proto tb in
  mk (mkEnumTypeDef (Enum_Type d) (Enum_Name d) (Enum_Comment d)
        (Enum_Elements d ++ [mkEnumElementDef sym comment])).

Definition Build (tb : t) : Type_ :=
  mkType TypeVariantEnumTypeDef
    None None None None None None (Some (proto tb)) None.
End EnumTypeBuilder.

(** ** Descriptors made by the builders *)

(** [built t]: [t] is the result of the terminal [Build] of the string,
    alias, struct, array, map, enum or union builder, in any state. *)
Inductive built : Type_ → Prop :=
  | built_string tb : built (StringTypeBuilder.Build tb)
  | built_alias tb : built (AliasTypeBuilder.Build tb)
  | built_struct tb : built (StructTypeBuilder.Build tb)
  | built_array tb : built (ArrayTypeBuilder.Build tb)
  | built_map tb : built (MapTypeBuilder.Build tb)
  | built_enum tb : built (EnumTypeBuilder.Build tb)
  | built_union tb : built (UnionTypeBuilder.Build tb).

Lemma built_named t : built t → is_Some (name_of (Some t)).
Proof.
  intros [tb|tb|tb|tb|tb|tb|tb]; try by eexists.
  unfold StringTypeBuilder.Build. by destruct (_ && _); eexists.
Qed.

(** X14: the first loop of [Build] cannot fail on descriptors made by the
    builders. Each carries the definition its variant tag selects, so the
    name-to-descriptor map is built, with exactly the declared names as
    keys; a nil entry among the Types makes the loop panic. *)
Theorem collect_built (types : list Type_) :
  Forall built types →
  (∃ all, collect (map Some types) ∅ = Returned all
          ∧ ∀ n, is_Some (all !! n) ↔ n ∈ declared_names (map Some types))
  ∧ ∀ rest, collect (map Some types ++ None :: rest) ∅ = Panic.
Proof.
  intros Hbuilt.
  assert (Hnamed : Forall (λ t, is_Some (name_of t)) (map Some types)).
  { apply Forall_fmap. eapply Forall_impl; [exact Hbuilt|].
    intros t Ht. by apply built_named. }
  split.
  - destruct (collect_returns _ ∅ Hnamed) as [all Hc]. exists all.
    split; [done|]. intros n. by apply collect_dom.
  - intros rest. generalize (∅ : gmap string Type_).
    clear Hbuilt. induction types as [|t types IH]; intros all0; [done|].
    apply Forall_cons in Hnamed as [[n Hn] Hnamed].
    apply name_of_Some in Hn as [s [c Hi]%info_Some].
    simpl. rewrite Hi. simpl. by apply IH.
Qed.

Lemma collect_built_example :
  (∃ all, collect (map Some [Line; Point; MyUUID; Bag]) ∅ = Returned all
          ∧ ∀ n, is_Some (all !! n) ↔
                 n ∈ declared_names (map Some [Line; Point; MyUUID; Bag]))
  ∧ ∀ rest,
      collect (map Some [Line; Point; MyUUID; Bag] ++ None :: rest) ∅ = Panic.
Proof.
  apply (collect_built [Line; Point; MyUUID; Bag]).
  repeat constructor.
Defined.

(** ** Types that extend each other *)

(** X15: when the descriptors registered under two names that are not Base
    Type names have each other's name as supertype, [resolve] called on
    either of them, in any state in which neither is resolved, exhausts
    every recursion bound: it never returns and never panics. *)
Theorem resolve_mutual_supertypes_diverge all a b ta tb (st : rstate) :
  all !! a = Some ta → info (Some ta) = Some (a, b) →
  all !! b = Some tb → info (Some tb) = Some (b, a) →
  isBaseType a = false → isBaseType b = false →
  st.2 !! a = None → st.2 !! b = None →
  diverges (λ fuel, resolve fuel all st a b)
  ∧ diverges (λ fuel, resolve fuel all st b a).
Proof.
  intros Ha Hia Hb Hib Hna Hnb Hra Hrb.
  split; intros fuel;
    by destruct (mutual_pair_diverges all a b ta tb Ha Hia Hb Hib Hna Hnb
                   fuel st Hra Hrb).
Qed.

Lemma resolve_mutual_supertypes_diverge_example :
  diverges (λ fuel,
    resolve fuel (<["Pong" := Pong]> (<["Ping" := Ping]> ∅)) ([], ∅)
      "Ping" "Pong")
  ∧ diverges (λ fuel,
      resolve fuel (<["Pong" := Pong]> (<["Ping" := Ping]> ∅)) ([], ∅)
        "Pong" "Ping").
Proof.
  apply (resolve_mutual_supertypes_diverge
           (<["Pong" := Pong]> (<["Ping" := Ping]> ∅)) "Ping" "Pong"
           Ping Pong (([], ∅) : rstate)); by_compute.
Defined.

(** ** The order in which dependencies are emitted *)

(** [for _, ref := range refs { ordered = sb.resolveRef(..., ref) }]: the
    dependency phase of [resolve] over the references [refs]. *)
Fixpoint follow (rec : rstate → string → string → outcome rstate)
    (all : gmap string Type_) (st : rstate) (refs : list string)
    : outcome rstate :=
  match refs with
  | [] => mret st
  | ref :: refs => st ← resolveRef rec all st ref; follow rec all st refs
  end.

Lemma resolveFields_follow rec all fields : ∀ st,
  resolveFields rec all st fields = follow rec all st (map Field_Type fields).
Proof.
  induction fields as [|f fields IH]; intros st; [done|]. simpl.
  apply bind_ext. intros st'. apply IH.
Qed.

(** With the definition present, [resolve] on an unresolved name follows the
    references of [followed], in their order, and then appends. *)
Lemma resolve_follow fuel all (st : rstate) name super t :
  all !! name = Some t → info (Some t) = Some (name, super) →
  defs_present (Some t) = true →
  st.2 !! name = None → isBaseType name = false →
  resolve (S fuel) all st name super
  = st' ← follow (resolve fuel all) all st (followed super t);
    mret (st'.1 ++ [Some t], <[name := true]> (st'.2)).
Proof.
  intros Ht Hi Hdefs Hres Hb. rewrite resolve_unfold. unfold resolve_step.
  rewrite Hres, bool_decide_eq_false_2 by (by intros [? ?]).
  rewrite Hb. cbn [orb]. cbv zeta. rewrite Ht.
  unfold defs_present in Hdefs. rewrite Hi in Hdefs. unfold followed.
  destruct (in_cases super no_dependencies); [done|].
  destruct (String.eqb super "Array").
  { apply bool_decide_eq_true in Hdefs as [d Hd].
    rewrite deref_Some, bind_Returned_l, Hd, deref_Some, bind_Returned_l.
    cbn [follow]. by destruct (resolveRef _ _ _ _). }
  destruct (String.eqb super "Map").
  { apply bool_decide_eq_true in Hdefs as [d Hd].
    rewrite deref_Some, bind_Returned_l, Hd, deref_Some, bind_Returned_l.
    cbn [follow].
    destruct (resolveRef _ _ _ (Map_Items d)) as [st1| |];
      [|done..]. rewrite !bind_Returned_l.
    by destruct (resolveRef _ _ _ _). }
  destruct (String.eqb super "Struct").
  { apply bool_decide_eq_true in Hdefs as [d Hd].
    rewrite deref_Some, bind_Returned_l, Hd, deref_Some, bind_Returned_l.
    by rewrite resolveFields_follow. }
  cbn [follow]. by destruct (resolveRef _ _ _ _).
Qed.

(** The name of a registered Type that is based directly on a Base Type
    other than Array, Map and Struct. *)
Definition leaf (all : gmap string Type_) (d : string) : Prop :=
  ∃ t s, all !! d = Some t ∧ info (Some t) = Some (d, s)
         ∧ isBaseType s = true
         ∧ s ≠ "Array" ∧ s ≠ "Map" ∧ s ≠ "Struct".

(** [resolved[d] = true] for each [d] of [ds]. *)
Definition mark (resolved : gmap string bool) (ds : list string)
    : gmap string bool :=
  foldl (λ m d, <[d := true]> m) resolved ds.

Lemma follow_leaves fuel all refs : ∀ st : rstate,
  (∀ d, d ∈ refs → isBaseType d = true ∨ leaf all d) →
  NoDup (filter (λ d, isBaseType d = false) refs) →
  (∀ d, d ∈ refs → isBaseType d = false → st.2 !! d = None) →
  follow (resolve (S fuel) all) all st refs
  = Returned
      (st.1 ++ map (λ d, all !! d) (filter (λ d, isBaseType d = false) refs),
       mark (st.2) (filter (λ d, isBaseType d = false) refs)).
Proof.
  induction refs as [|d refs IH]; intros st Hrefs Hnd Hres.
  { simpl. rewrite app_nil_r. by destruct st. }
  cbn [follow]. rewrite filter_cons in *.
  destruct (isBaseType d) eqn:Hb.
  - rewrite decide_False in * by done.
    unfold resolveRef at 1. rewrite Hb. simpl.
    apply IH; [|done|]; intros d' Hd'; [apply Hrefs|apply Hres]; by right.
  - rewrite decide_True in * by done.
    apply NoDup_cons in Hnd as [Hnotin Hnd].
    destruct (Hrefs d) as [?|(t & s & Ht & Hi & Hs & Ha & Hm & Hst)];
      [by left|congruence|].
    pose proof Hi as [c Hti]%info_Some.
    unfold resolveRef at 1. rewrite Hb, Ht, Hti. simpl negb. cbv iota.
    rewrite bind_Returned_l. cbv beta iota.
    rewrite (resolve_leaf fuel all st d s)
      by first [done | apply Hres; [by left|done]].
    rewrite bind_Returned_l, IH; simpl.
    + by rewrite <- app_assoc, Ht.
    + intros d' Hd'. apply Hrefs. by right.
    + done.
    + intros d' Hd' Hb'. rewrite lookup_insert_ne.
      * apply Hres; [by right|done].
      * intros ->. apply Hnotin. by apply list_elem_of_filter.
Qed.

(** X16: dependencies are emitted in the order in which [resolve] follows
    them: a map's item type before its key type, a struct's field types in
    field order. When the non-Base references followed from a Type are
    distinct, unresolved, and name Types based directly on Base Types other
    than Array, Map and Struct, [resolve] appends these Types in that order,
    then the Type itself, and marks them all resolved. *)
Theorem resolve_emits_in_followed_order fuel all (st : rstate) name super t :
  all !! name = Some t → info (Some t) = Some (name, super) →
  defs_present (Some t) = true →
  st.2 !! name = None → isBaseType name = false →
  (∀ d, d ∈ followed super t → isBaseType d = true ∨ leaf all d) →
  NoDup (filter (λ d, isBaseType d = false) (followed super t)) →
  (∀ d, d ∈ followed super t → isBaseType d = false → st.2 !! d = None) →
  resolve (S (S fuel)) all st name super
  = Returned
      (st.1
       ++ map (λ d, all !! d)
            (filter (λ d, isBaseType d = false) (followed super t))
       ++ [Some t],
       <[name := true]>
         (mark (st.2)
            (filter (λ d, isBaseType d = false) (followed super t)))).
Proof.
  intros Ht Hi Hdefs Hres Hb Hleaves Hnd Hfresh.
  rewrite (resolve_follow _ _ _ _ _ _ Ht Hi Hdefs Hres Hb).
  rewrite (follow_leaves fuel all _ st Hleaves Hnd Hfresh).
  rewrite bind_Returned_l. simpl. by rewrite <- app_assoc.
Qed.

(** A map from tags to labels, both aliases of String. *)
Definition Label : Type_ :=
  AliasTypeBuilder.Build (AliasTypeBuilder.New "String" "Label").

Definition Labels : Type_ :=
  MapTypeBuilder.Build
    (MapTypeBuilder.Items
       (MapTypeBuilder.Keys (MapTypeBuilder.New "Map" "Labels") "Tag")
       "Label").

Definition labels_all : gmap string Type_ :=
  <["Labels" := Labels]> (<["Label" := Label]> (<["Tag" := Tag]> ∅)).

Lemma resolve_emits_in_followed_order_example :
  resolve 2 labels_all ([], ∅) "Labels" "Map" ≫= (λ st, mret (st.1))
  = Returned [Some Label; Some Tag; Some Labels].
Proof.
  rewrite (resolve_emits_in_followed_order 0 labels_all (([], ∅) : rstate)
             "Labels" "Map" Labels).
  - by_compute.
  - by_compute.
  - by_compute.
  - by_compute.
  - done.
  - done.
  - intros d Hd. right. vm_compute in Hd.
    apply elem_of_cons in Hd as [->|Hd];
      [|apply list_elem_of_singleton in Hd as ->].
    + exists Label, "String". split_and!; (by_compute || done).
    + exists Tag, "String". split_and!; (by_compute || done).
  - decide_by_compute.
  - done.
Defined.

(** ** Array and map builders *)

Lemma resolveRef_unregistered rec all (st : rstate) ref :
  isBaseType ref = false → all !! ref = None →
  resolveRef rec all st ref = Panic.
Proof. intros Hb Hnone. unfold resolveRef. by rewrite Hb, Hnone. Qed.

Inductive array_call : Type :=
  | ArrayComment (comment : string)
  | ArrayItems (items : string).

Definition array_apply (tb : ArrayTypeBuilder.t) (c : array_call)
    : ArrayTypeBuilder.t :=
  match c with
  | ArrayComment comment => ArrayTypeBuilder.Comment tb comment
  | ArrayItems items => ArrayTypeBuilder.Items tb items
  end.

Definition array_chain (tb : ArrayTypeBuilder.t) (calls : list array_call)
    : ArrayTypeBuilder.t :=
  foldl array_apply tb calls.

Definition array_items_of (c : array_call) : option string :=
  match c with ArrayItems items => Some items | _ => None end.

Lemma array_chain_proto supertype name calls :
  let d := ArrayTypeBuilder.proto
             (array_chain (ArrayTypeBuilder.New supertype name) calls) in
  Array_Type d = supertype ∧ Array_Name d = name
  ∧ Array_Items d = last_set "" (omap array_items_of calls).
Proof.
  induction calls as [|c calls IH] using rev_ind; [done|].
  destruct IH as (Ht & Hn & Hi). unfold array_chain.
  rewrite foldl_app, omap_app.
  destruct c; simpl; rewrite ?app_nil_r, ?last_set_snoc; done.
Qed.

(** X17: an array built with supertype Array refers to the item type of the
    last Items call, and to the empty name when Items was never called.
    [resolve] follows that reference: when it names neither a Base Type nor
    a registered Type, as the empty name does unless a Type is declared
    under it, [resolve] panics on the array. *)
Theorem array_chain_items name (calls : list array_call) :
  let t :=
    ArrayTypeBuilder.Build
      (array_chain (ArrayTypeBuilder.New "Array" name) calls) in
  let items := last_set "" (omap array_items_of calls) in
  info (Some t) = Some (name, "Array")
  ∧ references_followed t = [items]
  ∧ (omap array_items_of calls = [] → items = "")
  ∧ ∀ fuel all (st : rstate),
      all !! name = Some t → st.2 !! name = None → isBaseType name = false →
      isBaseType items = false → all !! items = None →
      resolve (S fuel) all st name "Array" = Panic.
Proof.
  intros t items. subst t items.
  destruct (array_chain_proto "Array" name calls) as (Ht & Hn & Hi).
  assert (Hinfo : info (Some (ArrayTypeBuilder.Build
                    (array_chain (ArrayTypeBuilder.New "Array" name) calls)))
                  = Some (name, "Array")).
  { unfold info. simpl. by rewrite Ht, Hn. }
  split_and!; [done| | |].
  - unfold references_followed. rewrite Hinfo, <- Hi. reflexivity.
  - by intros ->.
  - intros fuel all st Hlook Hres Hb Hib Hnone.
    rewrite resolve_unfold. unfold resolve_step.
    rewrite Hres, bool_decide_eq_false_2 by (by intros [? ?]).
    rewrite Hb, Hlook. simpl. rewrite Hi.
    by rewrite resolveRef_unregistered.
Qed.

Inductive map_call : Type :=
  | MapComment (comment : string)
  | MapKeys (keys : string)
  | MapItems (items : string).

Definition map_apply (tb : MapTypeBuilder.t) (c : map_call)
    : MapTypeBuilder.t :=
  match c with
  | MapComment comment => MapTypeBuilder.Comment tb comment
  | MapKeys keys => MapTypeBuilder.Keys tb keys
  | MapItems items => MapTypeBuilder.Items tb items
  end.

Definition map_chain (tb : MapTypeBuilder.t) (calls : list map_call)
    : MapTypeBuilder.t :=
  foldl map_apply tb calls.

Definition map_keys_of (c : map_call) : option string :=
  match c with MapKeys keys => Some keys | _ => None end.
Definition map_items_of (c : map_call) : option string :=
  match c with MapItems items => Some items | _ => None end.

Lemma map_chain_proto supertype name calls :
  let d := MapTypeBuilder.proto
             (map_chain (MapTypeBuilder.New supertype name) calls) in
  Map_Type d = supertype ∧ Map_Name d = name
  ∧ Map_Keys d = last_set "" (omap map_keys_of calls)
  ∧ Map_Items d = last_set "" (omap map_items_of calls).
Proof.
  induction calls as [|c calls IH] using rev_ind; [done|].
  destruct IH as (Ht & Hn & Hk & Hi). unfold map_chain.
  rewrite foldl_app, !omap_app.
  destruct c; simpl; rewrite ?app_nil_r, ?last_set_snoc; done.
Qed.

(** X18: a map built with supertype Map refers to the item type of the last
    Items call and the key type of the last Keys call, in this order, each
    the empty name when never set. [resolve] follows the item reference
    first: when it names neither a Base Type nor a registered Type,
    [resolve] panics on the map before it looks at the keys. *)
Theorem map_chain_keys_items name (calls : list map_call) :
  let t :=
    MapTypeBuilder.Build (map_chain (MapTypeBuilder.New "Map" name) calls) in
  let keys := last_set "" (omap map_keys_of calls) in
  let items := last_set "" (omap map_items_of calls) in
  info (Some t) = Some (name, "Map")
  ∧ references_followed t = [items; keys]
  ∧ ∀ fuel all (st : rstate),
      all !! name = Some t → st.2 !! name = None → isBaseType name = false →
      isBaseType items = false → all !! items = None →
      resolve (S fuel) all st name "Map" = Panic.
Proof.
  intros t keys items. subst t keys items.
  destruct (map_chain_proto "Map" name calls) as (Ht & Hn & Hk & Hi).
  assert (Hinfo : info (Some (MapTypeBuilder.Build
                    (map_chain (MapTypeBuilder.New "Map" name) calls)))
                  = Some (name, "Map")).
  { unfold info. simpl. by rewrite Ht, Hn. }
  split_and!; [done| |].
  - unfold references_followed. rewrite Hinfo, <- Hk, <- Hi. reflexivity.
  - intros fuel all st Hlook Hres Hb Hib Hnone.
    rewrite resolve_unfold. unfold resolve_step.
    rewrite Hres, bool_decide_eq_false_2 by (by intros [? ?]).
    rewrite Hb, Hlook. simpl. rewrite Hi.
    by rewrite resolveRef_unregistered.
Qed.
